(** * nestjs-rate-limit: a shallow embedding of the rate-limit decision engine

    The development follows the TypeScript sources:

    - [src/hash.ts]                       [sha256]
    - [src/rate-limit.exception.ts]       [RateLimitException]
    - [src/rate-limit.interface.ts]       [RateLimitStore], [RateLimitOptions]
    - [src/decorators/*.decorator.ts]     [RateLimitDecoratorOptions], the
                                          [RateLimit] and [SkipRateLimit] metadata
    - [src/rate-limit.guard.ts]           [RateLimitGuard] (the Decision Stage)
    - [src/rate-limit.interceptor.ts]     [RateLimitInterceptor] (the Settlement
                                          Stage)
    - [src/rate-limit.module.ts]          [RateLimitModule]
    - [test/custom-rate-limit.guard.ts]   [CustomRateLimitGuard]

    JavaScript values are modelled as follows.  A [number] that the engine
    computes with is an integer ([Z]) or [NaN] (the only source of [NaN] is
    [parseInt] on what the store returns); configuration numbers are integers.
    A [string] is a Rocq [string], read as the UTF-8 bytes of the JavaScript
    string.  [undefined]/[null] are [None].  Every [await] on the store client
    is one node of a small program tree ([Prog]), so that the calls a stage
    makes, their order and their arguments are part of its meaning. *)

From Stdlib Require Import ZArith Ascii String List Lia Bool.
From stdpp Require Import base option list strings pretty gmap.

Local Open Scope string_scope.
Local Open Scope Z_scope.

(* ===================================================================== *)
(** ** SHA-256 (FIPS 180-4), as computed by
       [createHash('sha256').update(value).digest('hex')] *)
(* ===================================================================== *)

Module SHA256.

Definition wrap (x : Z) : Z := x mod 2 ^ 32.
Definition add32 (x y : Z) : Z := wrap (x + y).

Definition rotr (n x : Z) : Z :=
  Z.lor (Z.shiftr x n) (wrap (Z.shiftl x (32 - n))).
Definition shr (n x : Z) : Z := Z.shiftr x n.

Definition Ch (x y z : Z) : Z :=
  Z.lxor (Z.land x y) (Z.land (Z.lnot x) z).
Definition Maj (x y z : Z) : Z :=
  Z.lxor (Z.lxor (Z.land x y) (Z.land x z)) (Z.land y z).
Definition Sigma0 (x : Z) : Z := Z.lxor (Z.lxor (rotr 2 x) (rotr 13 x)) (rotr 22 x).
Definition Sigma1 (x : Z) : Z := Z.lxor (Z.lxor (rotr 6 x) (rotr 11 x)) (rotr 25 x).
Definition sigma0 (x : Z) : Z := Z.lxor (Z.lxor (rotr 7 x) (rotr 18 x)) (shr 3 x).
Definition sigma1 (x : Z) : Z := Z.lxor (Z.lxor (rotr 17 x) (rotr 19 x)) (shr 10 x).

(** The constants are defined as FIPS 180-4 defines them: the first 32 bits
    of the fractional parts of the cube roots ([K]) and of the square roots
    ([H0]) of the first primes. *)
Definition is_prime (n : nat) : bool :=
  forallb (fun d => negb (Nat.eqb (n mod d) 0)) (seq 2 (n - 2)).

Definition primes (count : nat) : list Z :=
  map Z.of_nat (firstn count (filter is_prime (seq 2 400))).

Fixpoint cube_root_from (bit : nat) (n r : Z) : Z :=
  let r' := Z.lor r (Z.shiftl 1 (Z.of_nat bit)) in
  let r := if r' * r' * r' <=? n then r' else r in
  match bit with
  | O => r
  | S bit' => cube_root_from bit' n r
  end.

Definition cube_root (n : Z) : Z := cube_root_from 40 n 0.

Definition K : list Z :=
  Eval vm_compute in map (fun p => wrap (cube_root (p * 2 ^ 96))) (primes 64).

(** The eight working variables / the intermediate hash value. *)
Record state := State {
  ra : Z; rb : Z; rc : Z; rd : Z; re : Z; rf : Z; rg : Z; rh : Z }.

Definition initial_word (i : nat) : Z :=
  wrap (Z.sqrt (nth i (primes 8) 0 * 2 ^ 64)).

Definition H0 : state :=
  Eval vm_compute in
    State (initial_word 0) (initial_word 1) (initial_word 2) (initial_word 3)
          (initial_word 4) (initial_word 5) (initial_word 6) (initial_word 7).

(** Padding: a single 1 bit, zeros up to 56 mod 64 bytes, then the bit
    length as a 64-bit big-endian integer. *)
Definition be_bytes (n : nat) (x : Z) : list Z :=
  map (fun i => Z.land (Z.shiftr x (8 * Z.of_nat (n - 1 - i))) 0xff) (seq 0 n).

Definition pad (msg : list Z) : list Z :=
  let len := Z.of_nat (length msg) in
  let zeros := Z.to_nat ((55 - len) mod 64) in
  msg ++ [0x80] ++ repeat 0 zeros ++ be_bytes 8 (8 * len).

Fixpoint words (fuel : nat) (bs : list Z) : list Z :=
  match fuel, bs with
  | S fuel', b0 :: b1 :: b2 :: b3 :: rest =>
      (Z.lor (Z.shiftl b0 24) (Z.lor (Z.shiftl b1 16) (Z.lor (Z.shiftl b2 8) b3)))
        :: words fuel' rest
  | _, _ => []
  end.

Fixpoint blocks (fuel : nat) (ws : list Z) : list (list Z) :=
  match fuel, ws with
  | S fuel', _ :: _ => firstn 16 ws :: blocks fuel' (skipn 16 ws)
  | _, _ => []
  end.

(** Message schedule: sixteen block words extended to sixty-four. *)
Fixpoint schedule (n : nat) (W : list Z) : list Z :=
  match n with
  | O => W
  | S n' =>
      let t := length W in
      let at_ (k : nat) := nth (t - k) W 0 in
      schedule n' (W ++ [add32 (add32 (add32 (sigma1 (at_ 2%nat)) (at_ 7%nat))
                                      (sigma0 (at_ 15%nat))) (at_ 16%nat)])
  end.

Definition round (s : state) (kw : Z * Z) : state :=
  let '(k, w) := kw in
  let T1 := add32 (add32 (add32 (add32 (rh s) (Sigma1 (re s)))
                                (Ch (re s) (rf s) (rg s))) k) w in
  let T2 := add32 (Sigma0 (ra s)) (Maj (ra s) (rb s) (rc s)) in
  State (add32 T1 T2) (ra s) (rb s) (rc s) (add32 (rd s) T1) (re s) (rf s) (rg s).

Definition compress (h : state) (block : list Z) : state :=
  let s := fold_left round (combine K (schedule 48 block)) h in
  State (add32 (ra h) (ra s)) (add32 (rb h) (rb s))
        (add32 (rc h) (rc s)) (add32 (rd h) (rd s))
        (add32 (re h) (re s)) (add32 (rf h) (rf s))
        (add32 (rg h) (rg s)) (add32 (rh h) (rh s)).

Definition digest (msg : list Z) : state :=
  let bs := pad msg in
  let ws := words (length bs) bs in
  fold_left compress (blocks (length ws) ws) H0.

(** Lower-case hexadecimal, two digits per byte, eight per word. *)
Definition hex_digit (x : Z) : ascii :=
  let d := Z.land x 0xf in
  ascii_of_N (Z.to_N (if d <? 10 then 48 + d else 87 + d)).

Definition hex_word (x : Z) (tail : string) : string :=
  String (hex_digit (Z.shiftr x 28)) (String (hex_digit (Z.shiftr x 24))
  (String (hex_digit (Z.shiftr x 20)) (String (hex_digit (Z.shiftr x 16))
  (String (hex_digit (Z.shiftr x 12)) (String (hex_digit (Z.shiftr x 8))
  (String (hex_digit (Z.shiftr x 4)) (String (hex_digit x) tail))))))).

Definition hex (s : state) : string :=
  hex_word (ra s) (hex_word (rb s) (hex_word (rc s) (hex_word (rd s)
  (hex_word (re s) (hex_word (rf s) (hex_word (rg s) (hex_word (rh s) ""))))))).

Definition bytes_of_string (s : string) : list Z :=
  map (fun c => Z.of_N (N_of_ascii c)) (list_ascii_of_string s).

End SHA256.

(** [src/hash.ts]: [sha256(value)]. *)
Definition sha256 (value : string) : string :=
  SHA256.hex (SHA256.digest (SHA256.bytes_of_string value)).

(* ===================================================================== *)
(** ** JavaScript values used by the engine *)
(* ===================================================================== *)

(** A JavaScript [number] as the engine meets it: an integer, or [NaN]
    (which only [parseInt] can produce here). *)
Inductive number : Type :=
| Num (z : Z)
| NaN.

(** [a < b], [a > b], [a >= b]: every comparison with [NaN] is [false]. *)
Definition js_lt (a b : number) : bool :=
  match a, b with Num x, Num y => x <? y | _, _ => false end.
Definition js_gt (a b : number) : bool :=
  match a, b with Num x, Num y => y <? x | _, _ => false end.
Definition js_ge (a b : number) : bool :=
  match a, b with Num x, Num y => y <=? x | _, _ => false end.

(** [a - b]. *)
Definition js_sub (a b : number) : number :=
  match a, b with Num x, Num y => Num (x - y) | _, _ => NaN end.

(** [String(n)]. *)
Definition js_String (n : number) : string :=
  match n with Num z => pretty z | NaN => "NaN" end.

(** Truthiness of a [string | null | undefined]: the empty string is falsy. *)
Definition truthy_string (v : option string) : bool :=
  match v with
  | Some s => negb (String.eqb s "")
  | None => false
  end.

(** Truthiness of a [boolean | undefined]. *)
Definition truthy_bool (v : option bool) : bool :=
  match v with Some b => b | None => false end.

(** [a || b] on numbers: [0] is falsy. *)
Definition or_number (a : option Z) (b : Z) : Z :=
  match a with
  | Some x => if x =? 0 then b else x
  | None => b
  end.

(** [parseInt(s, 10)]: leading white space is skipped, an optional sign is
    read, then the longest run of decimal digits; no digit at all gives [NaN].
    (White space is the ASCII part of the ECMAScript set.) *)
Definition is_white_space (c : ascii) : bool :=
  let n := N_of_ascii c in
  ((n =? 9) || (n =? 10) || (n =? 11) || (n =? 12) || (n =? 13) || (n =? 32))%N.

Definition digit_of (c : ascii) : option Z :=
  let n := Z.of_N (N_of_ascii c) in
  if (48 <=? n) && (n <=? 57) then Some (n - 48) else None.

Fixpoint skip_white_space (s : string) : string :=
  match s with
  | String c rest => if is_white_space c then skip_white_space rest else s
  | EmptyString => s
  end.

Fixpoint digits_value (s : string) (acc : Z) : Z :=
  match s with
  | String c rest =>
      match digit_of c with
      | Some d => digits_value rest (10 * acc + d)
      | None => acc
      end
  | EmptyString => acc
  end.

Definition unsigned_value (s : string) : number :=
  match s with
  | String c _ =>
      match digit_of c with
      | Some _ => Num (digits_value s 0)
      | None => NaN
      end
  | EmptyString => NaN
  end.

Definition js_neg (n : number) : number :=
  match n with Num z => Num (- z) | NaN => NaN end.

Definition parseInt (s : string) : number :=
  match skip_white_space s with
  | String "-" rest => js_neg (unsigned_value rest)
  | String "+" rest => unsigned_value rest
  | t => unsigned_value t
  end.

(* ===================================================================== *)
(** ** Configuration and route metadata *)
(* ===================================================================== *)

(** [RateLimitDecoratorOptions] ([src/decorators/rate-limit.decorator.ts]). *)
Module Decorator.
Record RateLimitDecoratorOptions : Type := {
  duration : Z;
  limit : Z;
  errorMessage : option string;
  countAllRequests : option bool
}.
End Decorator.
Export Decorator (RateLimitDecoratorOptions).

(** [RateLimitOptions] ([src/rate-limit.interface.ts]).  The [storeClient]
    field is the store the program trees below are run against. *)
Module Options.
Record RateLimitOptions : Type := {
  duration : Z;
  limit : Z;
  errorMessage : option string;
  countAllRequests : option bool
}.
End Options.
Export Options (RateLimitOptions).

(** The metadata a decorator attaches to one target (a handler or a
    controller class), one slot per metadata key of [src/constants.ts]. *)
Record Metadata : Type := {
  RATE_LIMIT_OPTIONS : option RateLimitDecoratorOptions;
  SKIP_RATE_LIMIT : option bool
}.

Definition no_metadata : Metadata :=
  {| RATE_LIMIT_OPTIONS := None; SKIP_RATE_LIMIT := None |}.

(** [@RateLimit(options)] is [SetMetadata(RATE_LIMIT_OPTIONS, options)]. *)
Definition RateLimit (options : RateLimitDecoratorOptions) (target : Metadata) : Metadata :=
  {| RATE_LIMIT_OPTIONS := Some options; SKIP_RATE_LIMIT := SKIP_RATE_LIMIT target |}.

(** [@SkipRateLimit()] is [SetMetadata(SKIP_RATE_LIMIT, true)]. *)
Definition SkipRateLimit (target : Metadata) : Metadata :=
  {| RATE_LIMIT_OPTIONS := RATE_LIMIT_OPTIONS target; SKIP_RATE_LIMIT := Some true |}.

(** The part of an [ExecutionContext] the engine reads: the names of the
    controller class and of the handler, and the metadata of both. *)
Record ExecutionContext : Type := {
  className : string;
  handlerName : string;
  handlerMetadata : Metadata;
  classMetadata : Metadata
}.

(** [Reflector.get(key, target)] and [Reflector.getAllAndOverride(key,
    targets)]: the latter returns the first value that is not [undefined]. *)
Definition reflector_get {A} (key : Metadata -> option A) (target : Metadata) : option A :=
  key target.

Fixpoint getAllAndOverride {A} (key : Metadata -> option A) (targets : list Metadata) : option A :=
  match targets with
  | [] => None
  | target :: rest =>
      match reflector_get key target with
      | Some v => Some v
      | None => getAllAndOverride key rest
      end
  end.

(* ===================================================================== *)
(** ** Requests, responses, exceptions *)
(* ===================================================================== *)

(** The request: what [getTracker] reads, and the request-scoped binding
    [rateLimitTracker] that carries the key from the guard to the
    interceptor. *)
Record Request : Type := {
  ip : option string;
  headers : option (gmap string string);
  rateLimitTracker : option string
}.

Definition bind_tracker (request : Request) (key : string) : Request :=
  {| ip := ip request; headers := headers request; rateLimitTracker := Some key |}.

(** A header value is what was handed to the platform: a number through
    [setHeader], a string through [header]. *)
Inductive HeaderValue : Type :=
| HNumber (n : number)
| HString (s : string).

(** Which header-setting method the response object has:
    [typeof response.setHeader === 'function'] (Node/Express),
    else [typeof response.header === 'function'] (Fastify), else neither. *)
Inductive ResponseApi : Type :=
| HasSetHeader
| HasHeader
| HasNeither.

Record Response : Type := {
  api : ResponseApi;
  statusCode : Z;
  responseHeaders : gmap string HeaderValue
}.

Definition with_header (response : Response) (name : string) (v : HeaderValue) : Response :=
  {| api := api response;
     statusCode := statusCode response;
     responseHeaders := <[name := v]> (responseHeaders response) |}.

(** [HttpException]: a message and a status. *)
Record HttpException : Type := {
  message : string;
  status : Z
}.

Definition TOO_MANY_REQUESTS : Z := 429.

(** [new RateLimitException(message)] ([src/rate-limit.exception.ts]). *)
Definition RateLimitException (message : option string) : HttpException :=
  {| message := default "Too Many Requests" message;
     status := TOO_MANY_REQUESTS |}.

(** How an [async] function ends. *)
Inductive Completion (A : Type) : Type :=
| Return (a : A)
| Throw (e : HttpException).
Arguments Return {A} a.
Arguments Throw {A} e.

(* ===================================================================== *)
(** ** The store client, and programs that await it *)
(* ===================================================================== *)

(** A program is a tree whose inner nodes are the awaited calls of
    [RateLimitStore] ([get], [incr], [expire], [ttl]); the continuation of a
    node receives what the store answered.  A call the store fails rejects
    the promise of the stage that awaits it and nothing of the stage follows;
    the trees describe the runs in which every call is answered. *)
Inductive Prog (A : Type) : Type :=
| Ret (a : A)
| Ttl (key : string) (k : Z -> Prog A)
| Get (key : string) (k : option string -> Prog A)
| Incr (key : string) (k : Z -> Prog A)
| Expire (key : string) (seconds : Z) (k : Prog A).
Arguments Ret {A} a.
Arguments Ttl {A} key k.
Arguments Get {A} key k.
Arguments Incr {A} key k.
Arguments Expire {A} key seconds k.

Fixpoint bind {A B} (p : Prog A) (f : A -> Prog B) : Prog B :=
  match p with
  | Ret a => f a
  | Ttl key k => Ttl key (fun r => bind (k r) f)
  | Get key k => Get key (fun r => bind (k r) f)
  | Incr key k => Incr key (fun r => bind (k r) f)
  | Expire key seconds k => Expire key seconds (bind k f)
  end.

Declare Scope prog_scope.
Delimit Scope prog_scope with prog.
Notation "'let*' x ':=' p 'in' q" := (bind p (fun x => q))
  (at level 10, x name, p at level 100, q at level 200) : prog_scope.
Notation "'do*' p 'in' q" := (bind p (fun _ => q))
  (at level 10, p at level 100, q at level 200) : prog_scope.
Local Open Scope prog_scope.

Definition ttl (key : string) : Prog Z := Ttl key Ret.
Definition get (key : string) : Prog (option string) := Get key Ret.
Definition incr (key : string) : Prog Z := Incr key Ret.
Definition expire (key : string) (seconds : Z) : Prog unit := Expire key seconds (Ret tt).

(** One awaited store call together with its answer. *)
Inductive StoreEvent : Type :=
| EvTtl (key : string) (answer : Z)
| EvGet (key : string) (answer : option string)
| EvIncr (key : string) (answer : Z)
| EvExpire (key : string) (seconds : Z).

(** [Runs p tr a]: [p] ends with [a] after the store calls [tr], whatever
    the store (any implementation, any other client writing in between). *)
Inductive Runs {A : Type} : Prog A -> list StoreEvent -> A -> Prop :=
| RunsRet a : Runs (Ret a) [] a
| RunsTtl key k r tr a :
    Runs (k r) tr a -> Runs (Ttl key k) (EvTtl key r :: tr) a
| RunsGet key k r tr a :
    Runs (k r) tr a -> Runs (Get key k) (EvGet key r :: tr) a
| RunsIncr key k r tr a :
    Runs (k r) tr a -> Runs (Incr key k) (EvIncr key r :: tr) a
| RunsExpire key seconds k tr a :
    Runs k tr a -> Runs (Expire key seconds k) (EvExpire key seconds :: tr) a.

(** The interface [RateLimitStore] over a state of type [S]. *)
Class RateLimitStore (S : Type) : Type := {
  store_get : string -> S -> option string * S;
  store_incr : string -> S -> Z * S;
  store_expire : string -> Z -> S -> S;
  store_ttl : string -> S -> Z * S
}.

Record Exec (A S : Type) : Type := {
  value : A;
  final : S;
  log : list StoreEvent
}.
Arguments value {A S} _.
Arguments final {A S} _.
Arguments log {A S} _.

(** Running a program against a store. *)
Fixpoint exec {A S} `{RateLimitStore S} (p : Prog A) (s : S) : Exec A S :=
  match p with
  | Ret a => {| value := a; final := s; log := [] |}
  | Ttl key k =>
      let '(r, s') := store_ttl key s in
      let e := exec (k r) s' in
      {| value := value e; final := final e; log := EvTtl key r :: log e |}
  | Get key k =>
      let '(r, s') := store_get key s in
      let e := exec (k r) s' in
      {| value := value e; final := final e; log := EvGet key r :: log e |}
  | Incr key k =>
      let '(r, s') := store_incr key s in
      let e := exec (k r) s' in
      {| value := value e; final := final e; log := EvIncr key r :: log e |}
  | Expire key seconds k =>
      let e := exec k (store_expire key seconds s) in
      {| value := value e; final := final e; log := EvExpire key seconds :: log e |}
  end.

(* ===================================================================== *)
(** ** The Decision Stage: [RateLimitGuard] ([src/rate-limit.guard.ts]) *)
(* ===================================================================== *)

(** [a ?? b]. *)
Definition nullish {A} (a b : option A) : option A :=
  match a with Some v => Some v | None => b end.

(** The two [protected] methods a subclass may override. *)
Record RateLimitGuardClass : Type := {
  getTracker : Request -> string;
  getErrorMessage : RateLimitOptions -> ExecutionContext -> string
}.

Module RateLimitGuard.

(** [(request.ip ?? request.headers?.['x-forwarded-for']) || 'unknown'] *)
Definition getTracker (request : Request) : string :=
  let forwarded := headers request ≫= (fun h => h !! "x-forwarded-for") in
  let address := nullish (ip request) forwarded in
  if truthy_string address then default "" address else "unknown".

(** [customOptions?.errorMessage ?? this.options.errorMessage ??
    'Too Many Requests'], with [customOptions] read from the handler only. *)
Definition getErrorMessage (options : RateLimitOptions) (context : ExecutionContext) : string :=
  let customOptions := reflector_get RATE_LIMIT_OPTIONS (handlerMetadata context) in
  default "Too Many Requests"
    (nullish (customOptions ≫= Decorator.errorMessage) (Options.errorMessage options)).

Definition class : RateLimitGuardClass :=
  Build_RateLimitGuardClass getTracker getErrorMessage.

End RateLimitGuard.

(** [test/custom-rate-limit.guard.ts]: the tracker is the [authorization]
    header when there is one, else the inherited tracker. *)
Module CustomRateLimitGuard.

Definition getTracker (request : Request) : string :=
  let authorization := headers request ≫= (fun h => h !! "authorization") in
  if truthy_string authorization then default "" authorization
  else RateLimitGuard.getTracker request.

Definition class : RateLimitGuardClass :=
  Build_RateLimitGuardClass getTracker RateLimitGuard.getErrorMessage.

End CustomRateLimitGuard.

(** [generateRateLimitKey(context, data)] *)
Definition generateRateLimitKey (context : ExecutionContext) (data : string) : string :=
  sha256 (className context ++ "-" ++ handlerName context ++ "-" ++ data).

Definition clamp_remaining (remaining : number) : number :=
  if js_lt remaining (Num 0) then Num 0 else remaining.

(** [setHeadersAllow(response, remaining, effectiveLimit, ttl)] *)
Definition setHeadersAllow (response : Response) (remaining : number)
    (effectiveLimit ttl : Z) : Response :=
  match api response with
  | HasSetHeader =>
      let r1 := with_header response "X-RateLimit-Limit" (HNumber (Num effectiveLimit)) in
      let r2 := with_header r1 "X-RateLimit-Remaining" (HNumber (clamp_remaining remaining)) in
      with_header r2 "X-RateLimit-Reset" (HNumber (Num ttl))
  | HasHeader =>
      let r1 := with_header response "X-RateLimit-Limit" (HString (js_String (Num effectiveLimit))) in
      let r2 := with_header r1 "X-RateLimit-Remaining"
                  (HString (js_String (clamp_remaining remaining))) in
      with_header r2 "X-RateLimit-Reset" (HString (js_String (Num ttl)))
  | HasNeither => response
  end.

(** [setHeadersLimit(response, ttl)] *)
Definition setHeadersLimit (response : Response) (ttl : Z) : Response :=
  match api response with
  | HasSetHeader => with_header response "Retry-After" (HNumber (Num ttl))
  | HasHeader => with_header response "Retry-After" (HString (js_String (Num ttl)))
  | HasNeither => response
  end.

(** What [canActivate] leaves behind: how the promise settled, and the
    request and response objects as it mutated them. *)
Record Activation : Type := {
  completion : Completion bool;
  request_after : Request;
  response_after : Response
}.

(** The policy fields as [canActivate] resolves them. *)
Definition customOptions_of (context : ExecutionContext) : option RateLimitDecoratorOptions :=
  getAllAndOverride RATE_LIMIT_OPTIONS [handlerMetadata context; classMetadata context].

Definition effectiveLimit_of (options : RateLimitOptions) (context : ExecutionContext) : Z :=
  or_number (Decorator.limit <$> customOptions_of context) (Options.limit options).

Definition effectiveDuration_of (options : RateLimitOptions) (context : ExecutionContext) : Z :=
  or_number (Decorator.duration <$> customOptions_of context) (Options.duration options).

(** [customOptions?.countAllRequests || this.options.countAllRequests || false] *)
Definition guard_countAllRequests (options : RateLimitOptions) (context : ExecutionContext) : bool :=
  truthy_bool (customOptions_of context ≫= Decorator.countAllRequests)
  || truthy_bool (Options.countAllRequests options)
  || false.

Definition skip_of (context : ExecutionContext) : bool :=
  truthy_bool (getAllAndOverride SKIP_RATE_LIMIT [handlerMetadata context; classMetadata context]).

(** The two ways [canActivate] ends once the count is known.  [reject] is
    [this.setHeadersLimit(response, ttl); throw new RateLimitException(await
    this.getErrorMessage(context))], which closes either branch when the limit
    is hit; [allow] is the code after the branches: [remaining], the allow
    headers, [return true]. *)
Definition reject (this : RateLimitGuardClass) (options : RateLimitOptions)
    (context : ExecutionContext) (request : Request) (response : Response)
    (ttl : Z) : Activation :=
  {| completion := Throw (RateLimitException (Some (getErrorMessage this options context)));
     request_after := request;
     response_after := setHeadersLimit response ttl |}.

Definition allow (effectiveLimit : Z) (request : Request) (response : Response)
    (ttl : Z) (count : number) : Activation :=
  let remaining := js_sub (Num effectiveLimit) count in
  {| completion := Return true;
     request_after := request;
     response_after := setHeadersAllow response remaining effectiveLimit ttl |}.

(** [if (ttl < 0) { ttl = effectiveDuration; }] *)
Definition window (effectiveDuration ttl : Z) : Z :=
  if ttl <? 0 then effectiveDuration else ttl.

(** [currentVal ? parseInt(currentVal, 10) : 0] *)
Definition count_of_value (currentVal : option string) : number :=
  if truthy_string currentVal then parseInt (default "" currentVal) else Num 0.

(** [canActivate(context)], with [this] (the class and its options) and the
    request and response of the context made explicit. *)
Definition canActivate (this : RateLimitGuardClass) (options : RateLimitOptions)
    (context : ExecutionContext) (request : Request) (response : Response)
  : Prog Activation :=
  let skip := skip_of context in
  if skip then
    Ret {| completion := Return true; request_after := request; response_after := response |}
  else
    let effectiveLimit := effectiveLimit_of options context in
    let effectiveDuration := effectiveDuration_of options context in
    let countAllRequests := guard_countAllRequests options context in
    let tracker := getTracker this request in
    let key := generateRateLimitKey context tracker in
    let request := bind_tracker request key in
    let* ttl := ttl key in
    let ttl := window effectiveDuration ttl in
    if countAllRequests then
      let* newCount := incr key in
      do* (if newCount =? 1 then expire key effectiveDuration else Ret tt) in
      let count := Num newCount in
      if js_gt count (Num effectiveLimit)
      then Ret (reject this options context request response ttl)
      else Ret (allow effectiveLimit request response ttl count)
    else
      let* currentVal := get key in
      let count := count_of_value currentVal in
      if js_ge count (Num effectiveLimit)
      then Ret (reject this options context request response ttl)
      else Ret (allow effectiveLimit request response ttl count).

(* ===================================================================== *)
(** ** The Settlement Stage: [RateLimitInterceptor]
       ([src/rate-limit.interceptor.ts]) *)
(* ===================================================================== *)

(** What [next.handle()] delivers: the values the handler emits (each with
    the response object as it is at that moment), then completion or an
    error.  A handler that returns a value or a promise emits once; one that
    throws emits nothing and errors. *)
Record Observable : Type := {
  emissions : list Response;
  errored : bool
}.

(** [tap(f)] with a single function: [f] runs on every emitted value and on
    nothing else. *)
Fixpoint tap (f : Response -> Prog unit) (emitted : list Response) : Prog unit :=
  match emitted with
  | [] => Ret tt
  | response :: rest => do* f response in tap f rest
  end.

(** [customOptions?.countAllRequests ?? this.options.countAllRequests ?? false] *)
Definition interceptor_countAllRequests (options : RateLimitOptions)
    (context : ExecutionContext) : bool :=
  default false
    (nullish (customOptions_of context ≫= Decorator.countAllRequests)
             (Options.countAllRequests options)).

(** The [async] function started by the [tap] callback. *)
Definition settle (options : RateLimitOptions) (context : ExecutionContext)
    (countAllRequests : bool) (request : Request) (response : Response) : Prog unit :=
  let key := rateLimitTracker request in
  if negb countAllRequests && truthy_string key then
    if statusCode response <? 400 then
      let* count := incr (default "" key) in
      if count =? 1
      then expire (default "" key)
             (or_number (Decorator.duration <$> customOptions_of context)
                        (Options.duration options))
      else Ret tt
    else Ret tt
  else Ret tt.

(** [intercept(context, next)]: the store calls made while the piped
    observable is consumed. *)
Definition intercept (options : RateLimitOptions) (context : ExecutionContext)
    (request : Request) (handled : Observable) : Prog unit :=
  let countAllRequests := interceptor_countAllRequests options context in
  tap (settle options context countAllRequests request) (emissions handled).

(* ===================================================================== *)
(** ** One request through the pipeline *)
(* ===================================================================== *)

(** The protected operation, as far as the engine can see it. *)
Definition Handler : Type := Response -> Observable.

(** A handler that returns (once) with the response status [code], and one
    that throws. *)
Inductive Outcome : Type :=
| Responds (code : Z)
| Fails.

Definition handler_of (outcome : Outcome) : Handler := fun response =>
  match outcome with
  | Responds code =>
      {| emissions := [ {| api := api response; statusCode := code;
                           responseHeaders := responseHeaders response |} ];
         errored := false |}
  | Fails => {| emissions := []; errored := true |}
  end.

(** Guard, then (only when the guard allowed) interceptor and handler.  The
    [tap] callback starts the settlement without awaiting it; here it runs to
    its end before anything else touches the store, so requests are handled
    one after another. *)
Definition handleRequest (this : RateLimitGuardClass) (options : RateLimitOptions)
    (context : ExecutionContext) (request : Request) (response : Response)
    (handler : Handler) : Prog Activation :=
  let* activation := canActivate this options context request response in
  match completion activation with
  | Return true =>
      do* intercept options context (request_after activation)
            (handler (response_after activation)) in
      Ret activation
  | _ => Ret activation
  end.

(* ===================================================================== *)
(** ** The backing store behind [RedisAdapter] / [ValkeyAdapter] *)
(* ===================================================================== *)

(** The adapters forward [get], [incr], [expire] and [ttl] unchanged to the
    client, so a store state is a Redis keyspace: under each key an integer
    and, when one was set, the seconds it still has to live.  Time is
    counted in whole seconds. *)
Module Redis.

Record Entry : Type := {
  stored : Z;
  expiry : option Z
}.

Abbreviation Keyspace := (gmap string Entry).

(** [GET key]: the decimal text of the value, or [null]. *)
Definition GET (key : string) (db : Keyspace) : option string :=
  (fun e => pretty (stored e)) <$> db !! key.

(** [INCR key]: a missing key counts as [0]; the time to live is kept. *)
Definition INCR (key : string) (db : Keyspace) : Z * Keyspace :=
  match db !! key with
  | Some e =>
      (stored e + 1, <[key := {| stored := stored e + 1; expiry := expiry e |}]> db)
  | None => (1, <[key := {| stored := 1; expiry := None |}]> db)
  end.

(** [EXPIRE key seconds]: nothing on a missing key; a time to live that is
    not positive deletes the key. *)
Definition EXPIRE (key : string) (seconds : Z) (db : Keyspace) : Keyspace :=
  match db !! key with
  | Some e =>
      if seconds <=? 0 then delete key db
      else <[key := {| stored := stored e; expiry := Some seconds |}]> db
  | None => db
  end.

(** [TTL key]: [-2] for a missing key, [-1] for a key without expiry. *)
Definition TTL (key : string) (db : Keyspace) : Z :=
  match db !! key with
  | Some e => default (-1) (expiry e)
  | None => -2
  end.

(** [seconds] pass: keys whose time to live runs out disappear. *)
Definition age (seconds : Z) (e : Entry) : option Entry :=
  match expiry e with
  | Some t =>
      if t - seconds <=? 0 then None
      else Some {| stored := stored e; expiry := Some (t - seconds) |}
  | None => Some e
  end.

Definition elapse (seconds : Z) (db : Keyspace) : Keyspace :=
  omap (age seconds) db.

(** The counter as the engine sees it: a missing key reads as [0]. *)
Definition counter (key : string) (db : Keyspace) : Z :=
  from_option stored 0 (db !! key).

End Redis.

#[export] Instance RedisAdapter : RateLimitStore (gmap string Redis.Entry) := {
  store_get key db := (Redis.GET key db, db);
  store_incr key db := Redis.INCR key db;
  store_expire key seconds db := Redis.EXPIRE key seconds db;
  store_ttl key db := (Redis.TTL key db, db)
}.

(* ===================================================================== *)
(** ** A client's requests to one route, over time *)
(* ===================================================================== *)

Inductive Event : Type :=
| Elapse (seconds : nat)
| Incoming (outcome : Outcome).

Record Served : Type := {
  activations : list Activation;
  keyspace : gmap string Redis.Entry;
  calls : list StoreEvent
}.

(** The events in order; every request meets the same route with the same
    fresh request and response objects. *)
Fixpoint serve (this : RateLimitGuardClass) (options : RateLimitOptions)
    (context : ExecutionContext) (request : Request) (response : Response)
    (events : list Event) (db : gmap string Redis.Entry) : Served :=
  match events with
  | [] => {| activations := []; keyspace := db; calls := [] |}
  | Elapse seconds :: rest =>
      serve this options context request response rest
        (Redis.elapse (Z.of_nat seconds) db)
  | Incoming outcome :: rest =>
      let e := exec (handleRequest this options context request response
                       (handler_of outcome)) db in
      let r := serve this options context request response rest (final e) in
      {| activations := value e :: activations r;
         keyspace := keyspace r;
         calls := log e ++ calls r |}
  end.

Fixpoint elapsed (events : list Event) : Z :=
  match events with
  | [] => 0
  | Elapse seconds :: rest => Z.of_nat seconds + elapsed rest
  | Incoming _ :: rest => elapsed rest
  end.

Definition allowed (a : Activation) : bool :=
  match completion a with Return true => true | _ => false end.

Definition rejected (a : Activation) : bool :=
  match completion a with Throw _ => true | _ => false end.

Definition is_expire (ev : StoreEvent) : bool :=
  match ev with EvExpire _ _ => true | _ => false end.

(** An outcome below the error threshold. *)
Definition successful (outcome : Outcome) : bool :=
  match outcome with
  | Responds code => code <? 400
  | Fails => false
  end.

(* ===================================================================== *)
(** ** Vocabulary for the statements below *)
(* ===================================================================== *)

(** Whether the settlement of one emitted value reaches [incr]. *)
Definition settles (request : Request) (countAllRequests : bool) (response : Response) : bool :=
  negb countAllRequests && truthy_string (rateLimitTracker request)
  && (statusCode response <? 400).

Definition count_expire (tr : list StoreEvent) : nat := length (filter is_expire tr).

(** The outcomes of the requests of a timeline, in order. *)
Fixpoint requests (events : list Event) : list Outcome :=
  match events with
  | [] => []
  | Elapse _ :: rest => requests rest
  | Incoming outcome :: rest => outcome :: requests rest
  end.


(** The key holds the count [c] in a window with [t] seconds left; before the
    first counted event ([c = 0]) the key is missing and the window, once
    opened, will last [fullWindow] seconds. *)
Definition key_state (key : string) (fullWindow : Z)
    (db : gmap string Redis.Entry) (c t : Z) : Prop :=
  0 < t /\
  ((c = 0 /\ db !! key = None /\ t = fullWindow) \/
   (1 <= c /\ db !! key = Some {| Redis.stored := c; Redis.expiry := Some t |})).

(** What the decision rule answers when the count stands at [c] before the
    request, and where the count stands after the request. *)
Definition verdict (countAll : bool) (effectiveLimit c : Z) : bool :=
  if countAll then c + 1 <=? effectiveLimit else c <? effectiveLimit.

Definition counted (guardCountsAll interceptorCountsAll : bool) (effectiveLimit c : Z)
    (outcome : Outcome) : Z :=
  c + (if guardCountsAll then 1 else 0)
    + (if verdict guardCountsAll effectiveLimit c && successful outcome
          && negb interceptorCountsAll then 1 else 0).

(** The counter arithmetic of a whole timeline: the verdicts in order, and
    the final count. *)
Fixpoint tally (guardCountsAll interceptorCountsAll : bool) (effectiveLimit c : Z)
    (outs : list Outcome) : list bool * Z :=
  match outs with
  | [] => ([], c)
  | o :: rest =>
      let r := tally guardCountsAll interceptorCountsAll effectiveLimit
                 (counted guardCountsAll interceptorCountsAll effectiveLimit c o) rest in
      (verdict guardCountsAll effectiveLimit c :: fst r, snd r)
  end.

(** How a response attribute with the numeric value [n] is stored by a
    response that has a header-setting method. *)
Definition attribute (a : ResponseApi) (n : number) : HeaderValue :=
  match a with
  | HasHeader => HString (js_String n)
  | _ => HNumber n
  end.

Definition event_key (ev : StoreEvent) : string :=
  match ev with
  | EvTtl key _ | EvGet key _ | EvIncr key _ | EvExpire key _ => key
  end.

Definition is_incr (ev : StoreEvent) : bool :=
  match ev with EvIncr _ _ => true | _ => false end.

(** A route is marked to bypass limiting by [@SkipRateLimit()] on the handler
    or, the handler being unmarked, on the controller class. *)
Definition marked_to_bypass (context : ExecutionContext) : Prop :=
  SKIP_RATE_LIMIT (handlerMetadata context) = Some true \/
  (SKIP_RATE_LIMIT (handlerMetadata context) = None /\
   SKIP_RATE_LIMIT (classMetadata context) = Some true).

(** [request.headers?.['x-forwarded-for']] *)
Definition forwarded_for (request : Request) : option string :=
  headers request ≫= (fun h => h !! "x-forwarded-for").

(** "The first available of" a list of candidates, else a fallback, in the
    words of the specification; what counts as available is a parameter
    ([is_defined]: not [undefined]; [truthy_string]: defined and not empty). *)
Definition is_defined (v : option string) : bool :=
  match v with Some _ => true | None => false end.

Fixpoint first_available (available : option string -> bool)
    (candidates : list (option string)) (fallback : string) : string :=
  match candidates with
  | [] => fallback
  | v :: rest =>
      if available v then default "" v else first_available available rest fallback
  end.

Definition spec_default_tracker (available : option string -> bool) (request : Request) : string :=
  first_available available [ip request; forwarded_for request] "unknown".

(* ===================================================================== *)
(** ** The routes of [test/app.controller.ts] and the options of
       [test/app.module.ts] *)
(* ===================================================================== *)

Module App.

Definition rateLimitConfig : RateLimitOptions :=
  {| Options.duration := 30; Options.limit := 5;
     Options.errorMessage := Some "Too Many Requests";
     Options.countAllRequests := Some true |}.

Definition rate : ExecutionContext :=
  {| className := "AppController"; handlerName := "rate";
     handlerMetadata :=
       RateLimit {| Decorator.duration := 10; Decorator.limit := 2;
                    Decorator.errorMessage := None;
                    Decorator.countAllRequests := None |} no_metadata;
     classMetadata := no_metadata |}.

Definition rateLimitAll : ExecutionContext :=
  {| className := "AppController"; handlerName := "rateLimitAll";
     handlerMetadata :=
       RateLimit {| Decorator.duration := 60; Decorator.limit := 10;
                    Decorator.errorMessage := Some "Rate Limit All";
                    Decorator.countAllRequests := Some true |} no_metadata;
     classMetadata := no_metadata |}.

Definition ignored : ExecutionContext :=
  {| className := "AppController"; handlerName := "ignored";
     handlerMetadata := SkipRateLimit no_metadata;
     classMetadata := no_metadata |}.

(** A request from 127.0.0.1 and a fresh Express response. *)
Definition localhost : Request :=
  {| ip := Some "127.0.0.1"; headers := Some ∅; rateLimitTracker := None |}.

Definition fresh (a : ResponseApi) : Response :=
  {| api := a; statusCode := 200; responseHeaders := ∅ |}.

End App.

(** Further configurations the decorators and the module options allow. *)
Module Scenario.

(** The route [rate] with [countAllRequests: false] written out, under the
    module options of the test application (which count all requests). *)
Definition rateOptOut : ExecutionContext :=
  {| className := "AppController"; handlerName := "rate";
     handlerMetadata :=
       RateLimit {| Decorator.duration := 10; Decorator.limit := 2;
                    Decorator.errorMessage := None;
                    Decorator.countAllRequests := Some false |} no_metadata;
     classMetadata := no_metadata |}.

(** Module options that count successes only. *)
Definition successOnlyConfig : RateLimitOptions :=
  {| Options.duration := 30; Options.limit := 5;
     Options.errorMessage := None;
     Options.countAllRequests := None |}.

(** [@RateLimit] on the controller class, none on the handler. *)
Definition classLevel : ExecutionContext :=
  {| className := "PostsController"; handlerName := "getAll";
     handlerMetadata := no_metadata;
     classMetadata :=
       RateLimit {| Decorator.duration := 60; Decorator.limit := 1;
                    Decorator.errorMessage := Some "Slow down";
                    Decorator.countAllRequests := None |} no_metadata |}.

(** A request whose resolved address is the empty string, behind a proxy
    that sent [x-forwarded-for]. *)
Definition emptyIp : Request :=
  {| ip := Some ""; headers := Some {[ "x-forwarded-for" := "10.0.0.1" ]};
     rateLimitTracker := None |}.

End Scenario.

(* ===================================================================== *)
(** ** [RateLimitModule] ([src/rate-limit.module.ts]) *)
(* ===================================================================== *)

(** An injection token: a string constant or a class.  [APP_INTERCEPTOR] and
    [APP_GUARD] are the string constants of [@nestjs/core] under which a
    provider is applied to every route. *)
Inductive Token : Type :=
| StringToken (name : string)
| ClassToken (name : string).

Definition RATE_LIMIT_MODULE_OPTIONS : Token := StringToken "RATE_LIMIT_MODULE_OPTIONS".
Definition APP_INTERCEPTOR : Token := StringToken "APP_INTERCEPTOR".
Definition APP_GUARD : Token := StringToken "APP_GUARD".

Module RateLimitModule.

Section Wiring.
(** The type of [useFactory] functions, and [any]. *)
Variable Factory : Type.
Variable Any : Type.

(** The provider forms the module uses: a class listed by itself, and
    [{ provide, useValue }], [{ provide, useClass }],
    [{ provide, useFactory, inject }]. *)
Inductive Provider : Type :=
| ClassProvider (class : string)
| UseValue (provide : Token) (useValue : RateLimitOptions)
| UseClass (provide : Token) (useClass : string)
| UseFactory (provide : Token) (useFactory : Factory) (inject : list Any).

(** An entry of [exports]: a class, or a provider object. *)
Inductive Exported : Type :=
| ExportClass (class : string)
| ExportProvider (provider : Provider).

Record DynamicModule : Type := {
  module : string;
  imports : option (list Any);
  providers : list Provider;
  exports : list Exported
}.

(** [RateLimitModuleAsyncOptions] *)
Record RateLimitModuleAsyncOptions : Type := {
  async_imports : option (list Any);
  useFactory : Factory;
  inject : option (list Any)
}.

(** [forRoot(options)] *)
Definition forRoot (options : RateLimitOptions) : DynamicModule :=
  let rateLimitOptionsProvider := UseValue RATE_LIMIT_MODULE_OPTIONS options in
  let reflectorProvider := UseClass (ClassToken "Reflector") "Reflector" in
  {| module := "RateLimitModule";
     imports := None;
     providers :=
       [ rateLimitOptionsProvider;
         reflectorProvider;
         ClassProvider "RateLimitGuard";
         ClassProvider "RateLimitInterceptor";
         UseClass APP_INTERCEPTOR "RateLimitInterceptor" ];
     exports :=
       [ ExportClass "RateLimitGuard";
         ExportClass "RateLimitInterceptor";
         ExportProvider rateLimitOptionsProvider;
         ExportClass "Reflector" ] |}.

(** [createAsyncOptionsProvider(options)] *)
Definition createAsyncOptionsProvider (options : RateLimitModuleAsyncOptions) : Provider :=
  UseFactory RATE_LIMIT_MODULE_OPTIONS (useFactory options) (default [] (inject options)).

(** [forRootAsync(options)] *)
Definition forRootAsync (options : RateLimitModuleAsyncOptions) : DynamicModule :=
  let reflectorProvider := UseClass (ClassToken "Reflector") "Reflector" in
  let asyncOptionsProvider := createAsyncOptionsProvider options in
  {| module := "RateLimitModule";
     imports := Some (default [] (async_imports options));
     providers :=
       [ asyncOptionsProvider;
         reflectorProvider;
         UseClass APP_INTERCEPTOR "RateLimitInterceptor";
         ClassProvider "RateLimitGuard";
         ClassProvider "RateLimitInterceptor" ];
     exports :=
       [ ExportClass "RateLimitGuard";
         ExportClass "RateLimitInterceptor";
         ExportProvider asyncOptionsProvider;
         ExportClass "Reflector" ] |}.

(** The token under which a provider is registered, the token an export
    refers to, and the class a provider instantiates (if it names one). *)
Definition token_of (p : Provider) : Token :=
  match p with
  | ClassProvider class => ClassToken class
  | UseValue provide _ | UseClass provide _ | UseFactory provide _ _ => provide
  end.

Definition exported_token (e : Exported) : Token :=
  match e with
  | ExportClass class => ClassToken class
  | ExportProvider provider => token_of provider
  end.

Definition class_of (p : Provider) : option string :=
  match p with
  | ClassProvider class | UseClass _ class => Some class
  | UseValue _ _ | UseFactory _ _ _ => None
  end.

End Wiring.

Arguments ClassProvider {Factory Any} class.
Arguments UseValue {Factory Any} provide useValue.
Arguments UseClass {Factory Any} provide useClass.
Arguments UseFactory {Factory Any} provide useFactory inject.
Arguments ExportClass {Factory Any} class.
Arguments ExportProvider {Factory Any} provider.
Arguments module {Factory Any} _.
Arguments imports {Factory Any} _.
Arguments providers {Factory Any} _.
Arguments exports {Factory Any} _.
Arguments async_imports {Factory Any} _.
Arguments useFactory {Factory Any} _.
Arguments inject {Factory Any} _.
Arguments createAsyncOptionsProvider {Factory Any} options.
Arguments forRootAsync {Factory Any} options.
Arguments token_of {Factory Any} p.
Arguments exported_token {Factory Any} e.
Arguments class_of {Factory Any} p.

End RateLimitModule.

(* ===================================================================== *)
(** ** Further vocabulary *)
(* ===================================================================== *)

(** A name without the separator of the hash input. *)
Fixpoint dash_free (name : string) : bool :=
  match name with
  | EmptyString => true
  | String c rest => negb (Ascii.eqb c "-") && dash_free rest
  end.

(** The text that [generateRateLimitKey] hashes:
    [`${className}-${handlerName}-${data}`]. *)
Definition hashed_text (context : ExecutionContext) (data : string) : string :=
  className context ++ "-" ++ handlerName context ++ "-" ++ data.

(** A lower-case hexadecimal digit. *)
Definition is_hex_digit (c : ascii) : bool :=
  let n := N_of_ascii c in
  (((48 <=? n) && (n <=? 57)) || ((97 <=? n) && (n <=? 102)))%N.

Definition count_incr (tr : list StoreEvent) : nat := length (filter is_incr tr).

(** The emitted values whose settlement counts: status below 400. *)
Definition below_threshold (response : Response) : bool := statusCode response <? 400.

(** How many of the verdicts ([true]: let through) let the request through. *)
Fixpoint let_through (verdicts : list bool) : Z :=
  match verdicts with
  | [] => 0
  | v :: rest => (if v then 1 else 0) + let_through rest
  end.

(** A counter that is there, with or without a time to live. *)
Definition key_holds (key : string) (db : gmap string Redis.Entry)
    (c : Z) (e : option Z) : Prop :=
  1 <= c /\ db !! key = Some {| Redis.stored := c; Redis.expiry := e |}.

(* ===================================================================== *)
(** * Properties *)
(* ===================================================================== *)

Local Open Scope list_scope.

(** ** SHA-256 test vectors (FIPS 180-4, appendix) *)

Example sha256_empty :
  sha256 "" = "e3b0c44298fc1c149afbf4c8996fb92427ae41e4649b934ca495991b7852b855".
Proof. vm_compute. reflexivity. Qed.

Example sha256_abc :
  sha256 "abc" = "ba7816bf8f01cfea414140de5dae2223b00361a396177a9cb410ff61f20015ad".
Proof. vm_compute. reflexivity. Qed.

Example sha256_two_blocks :
  sha256 "abcdbcdecdefdefgefghfghighijhijkijkljklmklmnlmnomnopnopq"
  = "248d6a61d20638b8e5c026930c3e6039a33ce45964ff2167f6ecedd419db06c1".
Proof. vm_compute. reflexivity. Qed.

(** ** The scenarios of the specification, run on the model *)

(** Limit 2, window 10 s, count-all mode (the module options of the test
    application), store empty: request 1 is counted, opens the window and is
    let through with remaining 1; request 2 with remaining 0; request 3 is
    rejected with Retry-After the remaining TTL. *)
Example scenario_count_all :
  let key := generateRateLimitKey App.rate "127.0.0.1" in
  let r := serve RateLimitGuard.class App.rateLimitConfig App.rate App.localhost
             (App.fresh HasSetHeader)
             [Incoming (Responds 200); Elapse 2; Incoming (Responds 200);
              Elapse 1; Incoming (Responds 200)] ∅ in
  calls r = [EvTtl key (-2); EvIncr key 1; EvExpire key 10;
             EvTtl key 8; EvIncr key 2;
             EvTtl key 7; EvIncr key 3] /\
  map allowed (activations r) = [true; true; false] /\
  map (fun a => responseHeaders (response_after a) !! "X-RateLimit-Remaining")
    (activations r)
  = [Some (HNumber (Num 1)); Some (HNumber (Num 0)); None] /\
  map (fun a => responseHeaders (response_after a) !! "Retry-After") (activations r)
  = [None; None; Some (HNumber (Num 7))].
Proof. vm_compute. repeat split. Qed.

(** The same route in success-only mode: request 1 fails and is not
    counted; request 2 is still let through and, succeeding, brings the
    counter to 1. *)
Example scenario_success_only :
  let key := generateRateLimitKey App.rate "127.0.0.1" in
  let r := serve RateLimitGuard.class Scenario.successOnlyConfig App.rate App.localhost
             (App.fresh HasSetHeader) [Incoming Fails; Incoming (Responds 200)] ∅ in
  calls r = [EvTtl key (-2); EvGet key None;
             EvTtl key (-2); EvGet key None; EvIncr key 1; EvExpire key 10] /\
  map allowed (activations r) = [true; true] /\
  Redis.counter key (keyspace r) = 1.
Proof. vm_compute. repeat split. Qed.

(** Once the window has run out the key is gone and the next request opens
    a new window. *)
Example scenario_new_window :
  let key := generateRateLimitKey App.rate "127.0.0.1" in
  let r := serve RateLimitGuard.class App.rateLimitConfig App.rate App.localhost
             (App.fresh HasSetHeader)
             [Incoming (Responds 200); Incoming (Responds 200); Incoming (Responds 200);
              Elapse 10; Incoming (Responds 200)] ∅ in
  map allowed (activations r) = [true; true; false; true] /\
  count_expire (calls r) = 2%nat /\
  Redis.counter key (keyspace r) = 1.
Proof. vm_compute. repeat split. Qed.

(** ** Programs and their runs *)

Section ProgramFacts.
Context {A B : Type}.

Lemma Runs_bind (p : Prog A) (f : A -> Prog B) tr1 tr2 a b :
  Runs p tr1 a -> Runs (f a) tr2 b -> Runs (bind p f) (tr1 ++ tr2) b.
Proof.
  induction 1; intros Hf; simpl; try (constructor; auto); assumption.
Qed.

Lemma Runs_bind_inv (p : Prog A) (f : A -> Prog B) tr b :
  Runs (bind p f) tr b ->
  exists tr1 tr2 a, Runs p tr1 a /\ Runs (f a) tr2 b /\ tr = tr1 ++ tr2.
Proof.
  revert tr.
  induction p as [a | key k IH | key k IH | key k IH | key seconds k IH];
    intros tr Hrun; simpl in Hrun.
  - exists [], tr, a. repeat split; [constructor | assumption].
  - inversion Hrun as [ | ? ? r tr' ? Hk | | | ]; subst.
    destruct (IH r _ Hk) as (tr1 & tr2 & a & H1 & H2 & ->).
    exists (EvTtl key r :: tr1), tr2, a. repeat split; [constructor | ]; assumption.
  - inversion Hrun as [ | | ? ? r tr' ? Hk | | ]; subst.
    destruct (IH r _ Hk) as (tr1 & tr2 & a & H1 & H2 & ->).
    exists (EvGet key r :: tr1), tr2, a. repeat split; [constructor | ]; assumption.
  - inversion Hrun as [ | | | ? ? r tr' ? Hk | ]; subst.
    destruct (IH r _ Hk) as (tr1 & tr2 & a & H1 & H2 & ->).
    exists (EvIncr key r :: tr1), tr2, a. repeat split; [constructor | ]; assumption.
  - inversion Hrun as [ | | | | ? ? ? tr' ? Hk ]; subst.
    destruct (IH _ Hk) as (tr1 & tr2 & a & H1 & H2 & ->).
    exists (EvExpire key seconds :: tr1), tr2, a. repeat split; [constructor | ]; assumption.
Qed.

End ProgramFacts.

(** Running against a store is one of the runs. *)
Lemma exec_Runs {A S} `{RateLimitStore S} (p : Prog A) (s : S) :
  Runs p (log (exec p s)) (value (exec p s)).
Proof.
  revert s.
  induction p as [a | key k IH | key k IH | key k IH | key seconds k IH];
    intros s; simpl.
  - constructor.
  - destruct (store_ttl key s) as [r s']. simpl. constructor. apply IH.
  - destruct (store_get key s) as [r s']. simpl. constructor. apply IH.
  - destruct (store_incr key s) as [r s']. simpl. constructor. apply IH.
  - constructor. apply IH.
Qed.

Lemma exec_bind {A B S} `{RateLimitStore S} (p : Prog A) (f : A -> Prog B) (s : S) :
  exec (bind p f) s =
  {| value := value (exec (f (value (exec p s))) (final (exec p s)));
     final := final (exec (f (value (exec p s))) (final (exec p s)));
     log := log (exec p s) ++ log (exec (f (value (exec p s))) (final (exec p s))) |}.
Proof.
  revert s.
  induction p as [a | key k IH | key k IH | key k IH | key seconds k IH];
    intros s; simpl.
  - destruct (exec (f a) s); reflexivity.
  - destruct (store_ttl key s) as [r s']. simpl. rewrite IH. reflexivity.
  - destruct (store_get key s) as [r s']. simpl. rewrite IH. reflexivity.
  - destruct (store_incr key s) as [r s']. simpl. rewrite IH. reflexivity.
  - rewrite IH. reflexivity.
Qed.

(** Inversion of a run, one store call at a time. *)
Ltac run_step :=
  match goal with
  | H : Runs (Ret _) _ _ |- _ => inversion H; subst; clear H
  | H : Runs (Ttl _ _) _ _ |- _ => inversion H; subst; clear H
  | H : Runs (Get _ _) _ _ |- _ => inversion H; subst; clear H
  | H : Runs (Incr _ _) _ _ |- _ => inversion H; subst; clear H
  | H : Runs (Expire _ _ _) _ _ |- _ => inversion H; subst; clear H
  | H : Runs (if ?c then _ else _) _ _ |- _ => destruct c eqn:?
  end.

(** ** The shape of every run of [canActivate] *)

Section Decision.
Variable this : RateLimitGuardClass.
Variable options : RateLimitOptions.
Variable context : ExecutionContext.
Variable request : Request.
Variable response : Response.

Let L := effectiveLimit_of options context.
Let D := effectiveDuration_of options context.
Let key := generateRateLimitKey context (getTracker this request).
Let bound := bind_tracker request key.

Lemma canActivate_skip tr a :
  skip_of context = true ->
  Runs (canActivate this options context request response) tr a ->
  tr = [] /\
  a = {| completion := Return true; request_after := request; response_after := response |}.
Proof.
  intros Hskip Hrun. unfold canActivate in Hrun. rewrite Hskip in Hrun.
  inversion Hrun; subst. split; reflexivity.
Qed.

Lemma canActivate_count_all tr a :
  skip_of context = false ->
  guard_countAllRequests options context = true ->
  Runs (canActivate this options context request response) tr a ->
  exists t n,
    tr = EvTtl key t :: EvIncr key n :: (if n =? 1 then [EvExpire key D] else []) /\
    a = if js_gt (Num n) (Num L)
        then reject this options context bound response (window D t)
        else allow L bound response (window D t) (Num n).
Proof.
  intros Hskip Hmode Hrun. unfold canActivate in Hrun.
  rewrite Hskip, Hmode in Hrun. unfold ttl, incr in Hrun. cbn [bind] in Hrun.
  inversion Hrun as [ | ? ? t tr1 ? Hrun1 | | | ]; subst; clear Hrun.
  inversion Hrun1 as [ | | | ? ? n tr2 ? Hrun2 | ]; subst; clear Hrun1.
  exists t, n. fold key D L bound in Hrun2 |- *.
  unfold expire in Hrun2.
  cbn [js_gt] in *.
  destruct (n =? 1); cbn [bind] in Hrun2;
    destruct (L <? n); repeat run_step; split; reflexivity.
Qed.

Lemma canActivate_success_only tr a :
  skip_of context = false ->
  guard_countAllRequests options context = false ->
  Runs (canActivate this options context request response) tr a ->
  exists t v,
    tr = [EvTtl key t; EvGet key v] /\
    a = if js_ge (count_of_value v) (Num L)
        then reject this options context bound response (window D t)
        else allow L bound response (window D t) (count_of_value v).
Proof.
  intros Hskip Hmode Hrun. unfold canActivate in Hrun.
  rewrite Hskip, Hmode in Hrun. unfold ttl, get in Hrun. cbn [bind] in Hrun.
  inversion Hrun as [ | ? ? t tr1 ? Hrun1 | | | ]; subst; clear Hrun.
  inversion Hrun1 as [ | | ? ? v tr2 ? Hrun2 | | ]; subst; clear Hrun1.
  exists t, v. fold key D L bound in Hrun2 |- *.
  destruct (js_ge (count_of_value v) (Num L)); repeat run_step; split; reflexivity.
Qed.

End Decision.


(** ** Keys *)


Lemma sha256_truthy value : truthy_string (Some (sha256 value)) = true.
Proof. unfold sha256, SHA256.hex, SHA256.hex_word. reflexivity. Qed.

Lemma generateRateLimitKey_truthy context data :
  truthy_string (Some (generateRateLimitKey context data)) = true.
Proof. apply sha256_truthy. Qed.

(** ** [parseInt] reads back what the store prints *)

Lemma digit_of_pretty_N_char d :
  (d < 10)%N -> digit_of (pretty_N_char d) = Some (Z.of_N d).
Proof.
  intros Hd.
  assert (d = 0 \/ d = 1 \/ d = 2 \/ d = 3 \/ d = 4 \/ d = 5 \/ d = 6
          \/ d = 7 \/ d = 8 \/ d = 9)%N as Hcases by lia.
  repeat (destruct Hcases as [-> | Hcases]; [reflexivity | ]).
  subst. reflexivity.
Qed.

Lemma digits_value_pretty_N_go x s :
  digits_value (pretty_N_go x s) 0 = digits_value s (Z.of_N x).
Proof.
  revert s. induction (N.lt_wf_0 x) as [x _ IH]. intros s.
  destruct (N.eq_dec x 0%N) as [-> | Hx].
  - rewrite pretty_N_go_0. reflexivity.
  - rewrite pretty_N_go_step by lia.
    rewrite IH by (apply N.div_lt; lia).
    cbn [digits_value].
    rewrite digit_of_pretty_N_char by (apply N.mod_lt; lia).
    f_equal.
    rewrite (N.div_mod x 10) at 3 by lia.
    rewrite N2Z.inj_add, N2Z.inj_mul. reflexivity.
Qed.

Lemma pretty_N_go_head x s :
  (0 < x)%N ->
  exists c rest d, pretty_N_go x s = String c rest /\ digit_of c = Some d.
Proof.
  revert s. induction (N.lt_wf_0 x) as [x _ IH]. intros s Hx.
  rewrite pretty_N_go_step by assumption.
  destruct (N.eq_dec (x `div` 10)%N 0%N) as [H0 | Hpos].
  - rewrite H0, pretty_N_go_0.
    exists (pretty_N_char (x `mod` 10)%N), s, (Z.of_N (x `mod` 10)%N).
    split; [reflexivity | ].
    apply digit_of_pretty_N_char, N.mod_lt. discriminate.
  - apply IH; [apply N.div_lt; lia | apply N.neq_0_lt_0, Hpos].
Qed.

Lemma unsigned_value_pretty_positive p :
  unsigned_value (pretty (Npos p)) = Num (Zpos p)
  /\ exists c rest d, pretty (Npos p) = String c rest /\ digit_of c = Some d.
Proof.
  unfold pretty, pretty_N. destruct (decide (N.pos p = 0%N)) as [Heq | _]; [discriminate | ].
  destruct (pretty_N_go_head (N.pos p) "") as (c & rest & d & Hs & Hd); [lia | ].
  split; [ | eauto].
  unfold unsigned_value. rewrite Hs, Hd, <- Hs.
  rewrite digits_value_pretty_N_go. reflexivity.
Qed.

Lemma digit_not_special c d :
  digit_of c = Some d ->
  is_white_space c = false /\ c <> "-"%char /\ c <> "+"%char.
Proof.
  intros Hd. repeat split.
  - destruct c as [[] [] [] [] [] [] [] []]; try reflexivity; discriminate Hd.
  - intros ->. discriminate Hd.
  - intros ->. discriminate Hd.
Qed.

Lemma parseInt_digits c rest d :
  digit_of c = Some d -> parseInt (String c rest) = unsigned_value (String c rest).
Proof.
  intros Hd. destruct (digit_not_special c d Hd) as (Hws & Hm & Hp).
  unfold parseInt. cbn [skip_white_space]. rewrite Hws.
  destruct c as [[] [] [] [] [] [] [] []]; try reflexivity; congruence.
Qed.

Lemma parseInt_pretty (z : Z) : parseInt (pretty z) = Num z.
Proof.
  destruct z as [ | p | p].
  - reflexivity.
  - change (pretty (Z.pos p)) with (pretty (N.pos p)).
    destruct (unsigned_value_pretty_positive p) as (Hv & c & rest & d & Hs & Hd).
    rewrite Hs, (parseInt_digits _ _ _ Hd), <- Hs. exact Hv.
  - change (pretty (Z.neg p)) with ("-" +:+ pretty (N.pos p)).
    destruct (unsigned_value_pretty_positive p) as (Hv & _).
    change (parseInt ("-" +:+ pretty (N.pos p)))
      with (js_neg (unsigned_value (pretty (N.pos p)))).
    rewrite Hv. reflexivity.
Qed.

Lemma pretty_truthy (z : Z) : truthy_string (Some (pretty z)) = true.
Proof.
  destruct z as [ | p | p]; try reflexivity.
  change (pretty (Z.pos p)) with (pretty (N.pos p)).
  destruct (unsigned_value_pretty_positive p) as (_ & c & rest & d & Hs & _).
  rewrite Hs. reflexivity.
Qed.

Lemma count_of_value_pretty (z : Z) : count_of_value (Some (pretty z)) = Num z.
Proof.
  unfold count_of_value. rewrite pretty_truthy. cbn [default from_option].
  apply parseInt_pretty.
Qed.


(** ** The two resolutions of [countAllRequests] *)

Lemma guard_countAllRequests_spec options context :
  guard_countAllRequests options context =
  match customOptions_of context ≫= Decorator.countAllRequests with
  | Some true => true
  | _ => match Options.countAllRequests options with Some b => b | None => false end
  end.
Proof.
  unfold guard_countAllRequests.
  destruct (customOptions_of context ≫= Decorator.countAllRequests) as [[] | ];
    destruct (Options.countAllRequests options) as [[] | ]; reflexivity.
Qed.

Lemma countAllRequests_agree options context :
  guard_countAllRequests options context = interceptor_countAllRequests options context
  <-> ~ (customOptions_of context ≫= Decorator.countAllRequests = Some false
         /\ Options.countAllRequests options = Some true).
Proof.
  unfold guard_countAllRequests, interceptor_countAllRequests.
  destruct (customOptions_of context ≫= Decorator.countAllRequests) as [[] | ];
    destruct (Options.countAllRequests options) as [[] | ]; cbn;
    split; try congruence; try (intros _ [? ?]; congruence); tauto.
Qed.

Lemma success_only_both options context :
  guard_countAllRequests options context = false ->
  interceptor_countAllRequests options context = false.
Proof.
  unfold guard_countAllRequests, interceptor_countAllRequests.
  destruct (customOptions_of context ≫= Decorator.countAllRequests) as [[] | ];
    destruct (Options.countAllRequests options) as [[] | ]; cbn; congruence.
Qed.

Lemma count_all_both options context :
  interceptor_countAllRequests options context = true ->
  guard_countAllRequests options context = true.
Proof.
  unfold guard_countAllRequests, interceptor_countAllRequests.
  destruct (customOptions_of context ≫= Decorator.countAllRequests) as [[] | ];
    destruct (Options.countAllRequests options) as [[] | ]; cbn; congruence.
Qed.

(** ** The shape of every run of the settlement *)

Section Settlement.
Variable options : RateLimitOptions.
Variable context : ExecutionContext.
Variable request : Request.

Let D := effectiveDuration_of options context.

Lemma settle_runs countAllRequests response tr u :
  Runs (settle options context countAllRequests request response) tr u ->
  if settles request countAllRequests response
  then exists key n,
      rateLimitTracker request = Some key /\
      tr = EvIncr key n :: (if n =? 1 then [EvExpire key D] else [])
  else tr = [].
Proof.
  unfold settle, settles. intros Hrun.
  destruct (negb countAllRequests && truthy_string (rateLimitTracker request)) eqn:Hgo;
    cbn [andb]; [ | inversion Hrun; reflexivity].
  destruct (statusCode response <? 400); [ | inversion Hrun; reflexivity].
  apply andb_prop in Hgo as [_ Hkey].
  destruct (rateLimitTracker request) as [key | ]; [ | discriminate Hkey].
  cbn [default from_option] in Hrun. unfold incr, expire in Hrun. cbn [bind] in Hrun.
  inversion Hrun as [ | | | ? ? n tr' ? Hrun' | ]; subst; clear Hrun.
  exists key, n. split; [reflexivity | ].
  fold D in Hrun'. destruct (n =? 1); repeat run_step; reflexivity.
Qed.

Lemma tap_no_key f emitted :
  (forall response, f response = Ret tt) -> tap f emitted = Ret tt.
Proof.
  intros Hf. induction emitted as [ | response rest IH]; [reflexivity | ].
  cbn [tap]. rewrite Hf. cbn [bind]. exact IH.
Qed.

End Settlement.

Section Pipeline.
Variable this : RateLimitGuardClass.
Variable options : RateLimitOptions.
Variable context : ExecutionContext.
Variable request : Request.
Variable response : Response.
Hypothesis Hskip : skip_of context = false.

Let L := effectiveLimit_of options context.
Let D := effectiveDuration_of options context.
Let key := generateRateLimitKey context (getTracker this request).

Lemma canActivate_binds tr a :
  Runs (canActivate this options context request response) tr a ->
  request_after a = bind_tracker request key.
Proof.
  intros Hrun.
  destruct (guard_countAllRequests options context) eqn:Hmode.
  - destruct (canActivate_count_all _ _ _ _ _ _ _ Hskip Hmode Hrun) as (t & n & _ & ->).
    destruct (js_gt _ _); reflexivity.
  - destruct (canActivate_success_only _ _ _ _ _ _ _ Hskip Hmode Hrun) as (t & v & _ & ->).
    destruct (js_ge _ _); reflexivity.
Qed.

Lemma canActivate_settles tr a :
  Runs (canActivate this options context request response) tr a ->
  allowed a || rejected a = true.
Proof.
  intros Hrun.
  destruct (guard_countAllRequests options context) eqn:Hmode.
  - destruct (canActivate_count_all _ _ _ _ _ _ _ Hskip Hmode Hrun) as (t & n & _ & ->).
    destruct (js_gt _ _); reflexivity.
  - destruct (canActivate_success_only _ _ _ _ _ _ _ Hskip Hmode Hrun) as (t & v & _ & ->).
    destruct (js_ge _ _); reflexivity.
Qed.

(** One request through both stages: the guard's calls, then at most one
    settlement. *)
Lemma handleRequest_runs outcome tr a :
  Runs (handleRequest this options context request response (handler_of outcome)) tr a ->
  exists tr1 tr2,
    tr = tr1 ++ tr2 /\
    Runs (canActivate this options context request response) tr1 a /\
    if allowed a && successful outcome && negb (interceptor_countAllRequests options context)
    then exists n, tr2 = EvIncr key n :: (if n =? 1 then [EvExpire key D] else [])
    else tr2 = [].
Proof.
  unfold handleRequest. intros Hrun.
  apply Runs_bind_inv in Hrun as (tr1 & tr2 & a0 & Hguard & Hrest & ->).
  pose proof (canActivate_binds _ _ Hguard) as Hbound.
  exists tr1, tr2.
  unfold allowed.
  destruct (completion a0) as [[ | ] | e] eqn:Hc.
  - apply Runs_bind_inv in Hrest as (trI & trR & u & Hint & Hret & ->).
    inversion Hret; subst; clear Hret. rewrite app_nil_r, Hc.
    repeat split; [assumption | ].
    unfold intercept in Hint. destruct outcome as [code | ]; cbn [handler_of emissions tap] in Hint.
    + apply Runs_bind_inv in Hint as (trS & trT & u' & Hset & Hret & ->).
      inversion Hret; subst; clear Hret. rewrite app_nil_r.
      apply settle_runs in Hset. unfold settles in Hset.
      rewrite Hbound in Hset. cbn [rateLimitTracker bind_tracker statusCode] in Hset.
      assert (truthy_string (Some key) = true) as Hk
        by apply generateRateLimitKey_truthy.
      rewrite Hk in Hset.
      cbn [successful andb].
      destruct (interceptor_countAllRequests options context); cbn [negb andb] in *.
      * rewrite andb_false_r. assumption.
      * rewrite andb_true_r. destruct (code <? 400); [ | assumption].
        destruct Hset as (key' & n & [= <-] & ->). exists n. reflexivity.
    + inversion Hint; subst. reflexivity.
  - inversion Hrest; subst; clear Hrest. rewrite app_nil_r, Hc.
    repeat split; assumption.
  - inversion Hrest; subst; clear Hrest. rewrite app_nil_r, Hc.
    repeat split; assumption.
Qed.

End Pipeline.


(** ** The store commands, seen from one key *)

Section OneKey.
Variable key : string.
Variable db : gmap string Redis.Entry.

Lemma INCR_answer : fst (Redis.INCR key db) = Redis.counter key db + 1.
Proof.
  unfold Redis.INCR, Redis.counter. destruct (db !! key); reflexivity.
Qed.

Lemma INCR_lookup :
  snd (Redis.INCR key db) !! key =
  Some {| Redis.stored := Redis.counter key db + 1;
          Redis.expiry := db !! key ≫= Redis.expiry |}.
Proof.
  unfold Redis.INCR, Redis.counter.
  destruct (db !! key); cbn [snd]; apply lookup_insert_eq.
Qed.

Lemma EXPIRE_lookup seconds :
  Redis.EXPIRE key seconds db !! key =
  match db !! key with
  | Some e =>
      if seconds <=? 0 then None
      else Some {| Redis.stored := Redis.stored e; Redis.expiry := Some seconds |}
  | None => None
  end.
Proof.
  unfold Redis.EXPIRE. destruct (db !! key) eqn:Hk; [ | assumption].
  destruct (seconds <=? 0); [apply lookup_delete_eq | apply lookup_insert_eq].
Qed.

Lemma elapse_lookup seconds :
  Redis.elapse seconds db !! key = db !! key ≫= Redis.age seconds.
Proof. unfold Redis.elapse. apply lookup_omap. Qed.

End OneKey.

(** ** One request against the store *)

Section RequestStep.
Variable this : RateLimitGuardClass.
Variable options : RateLimitOptions.
Variable context : ExecutionContext.
Variable request : Request.
Variable response : Response.
Hypothesis Hskip : skip_of context = false.

Let L := effectiveLimit_of options context.
Let D := effectiveDuration_of options context.
Let key := generateRateLimitKey context (getTracker this request).
Let bound := bind_tracker request key.
Let gm := guard_countAllRequests options context.
Let im := interceptor_countAllRequests options context.

(** The guard against the store, call by call. *)
Lemma exec_canActivate db :
  exec (canActivate this options context request response) db =
  let t := window D (Redis.TTL key db) in
  if gm then
    let n := fst (Redis.INCR key db) in
    let db1 := snd (Redis.INCR key db) in
    {| value := if js_gt (Num n) (Num L)
                then reject this options context bound response t
                else allow L bound response t (Num n);
       final := if n =? 1 then Redis.EXPIRE key D db1 else db1;
       log := EvTtl key (Redis.TTL key db) :: EvIncr key n
                :: (if n =? 1 then [EvExpire key D] else []) |}
  else
    let count := count_of_value (Redis.GET key db) in
    {| value := if js_ge count (Num L)
                then reject this options context bound response t
                else allow L bound response t count;
       final := db;
       log := [EvTtl key (Redis.TTL key db); EvGet key (Redis.GET key db)] |}.
Proof.
  unfold canActivate. rewrite Hskip. fold gm key L D bound.
  destruct gm; unfold ttl, incr, get, expire;
    cbn [bind exec store_ttl store_get store_incr store_expire RedisAdapter].
  - destruct (Redis.INCR key db) as [n db1]. cbn [fst snd].
    destruct (n =? 1); cbn [bind exec store_expire RedisAdapter];
      destruct (js_gt (Num n) (Num L)); reflexivity.
  - destruct (js_ge _ _); reflexivity.
Qed.

(** The settlement of one emitted value against the store. *)
Lemma exec_settle cAR req resp db :
  exec (settle options context cAR req resp) db =
  if settles req cAR resp then
    let k := default "" (rateLimitTracker req) in
    let n := fst (Redis.INCR k db) in
    let db1 := snd (Redis.INCR k db) in
    {| value := tt;
       final := if n =? 1 then Redis.EXPIRE k D db1 else db1;
       log := EvIncr k n :: (if n =? 1 then [EvExpire k D] else []) |}
  else {| value := tt; final := db; log := [] |}.
Proof.
  unfold settle, settles.
  destruct (negb cAR && truthy_string (rateLimitTracker req)); cbn [andb]; [ | reflexivity].
  destruct (statusCode resp <? 400); [ | reflexivity].
  unfold incr, expire. cbn [bind exec store_incr store_expire RedisAdapter].
  destruct (Redis.INCR _ db) as [n db1]. cbn [fst snd]. fold D.
  destruct (n =? 1); reflexivity.
Qed.


Let state := key_state key D.
Let verdict := verdict gm L.

Lemma key_state_reads db c t :
  state db c t ->
  Redis.counter key db = c /\
  count_of_value (Redis.GET key db) = Num c /\
  window D (Redis.TTL key db) = t.
Proof.
  unfold Redis.counter, Redis.GET, Redis.TTL, window.
  intros [Ht [(-> & -> & ->) | (Hc & ->)]]; cbn.
  - repeat split; reflexivity.
  - repeat split; [apply count_of_value_pretty | ].
    destruct (t <? 0) eqn:?; [lia | reflexivity].
Qed.

(** An increment followed by the conditional [expire]. *)
Lemma key_state_bump db c t :
  state db c t ->
  let n := fst (Redis.INCR key db) in
  let db1 := snd (Redis.INCR key db) in
  n = c + 1 /\
  (n =? 1) = (c =? 0) /\
  state (if n =? 1 then Redis.EXPIRE key D db1 else db1) (c + 1) t.
Proof.
  intros Hstate n db1.
  assert (n = c + 1) as Hn.
  { subst n. rewrite INCR_answer.
    destruct (key_state_reads _ _ _ Hstate) as (-> & _). reflexivity. }
  assert ((n =? 1) = (c =? 0)) as Hfirst.
  { rewrite Hn. destruct (c =? 0) eqn:?; lia. }
  refine (conj Hn (conj Hfirst (conj (proj1 Hstate) _))).
  right. rewrite Hfirst. subst db1.
  destruct Hstate as [Ht [(-> & Hdb & ->) | (Hc & Hdb)]].
  - split; [lia | ]. cbn [Z.eqb].
    rewrite EXPIRE_lookup, INCR_lookup. unfold Redis.counter. rewrite Hdb. cbn.
    destruct (D <=? 0) eqn:?; [lia | reflexivity].
  - split; [lia | ].
    assert ((c =? 0) = false) as -> by lia.
    rewrite INCR_lookup. unfold Redis.counter. rewrite Hdb. reflexivity.
Qed.

Lemma guard_step db c t :
  state db c t ->
  let g := exec (canActivate this options context request response) db in
  allowed (value g) = verdict c /\
  rejected (value g) = negb (verdict c) /\
  request_after (value g) = bound /\
  state (final g) (c + (if gm then 1 else 0)) t /\
  count_expire (log g) = (if gm && (c =? 0) then 1%nat else 0%nat).
Proof.
  intros Hstate g. subst g. rewrite exec_canActivate. unfold verdict.
  destruct (key_state_reads _ _ _ Hstate) as (_ & Hget & Httl).
  destruct (key_state_bump _ _ _ Hstate) as (Hn & Hfirst & Hnext).
  cbv zeta. destruct gm; cbn [value final log andb].
  - rewrite Hn, Hfirst in *. cbn [js_gt].
    refine (conj _ (conj _ (conj _ (conj _ _)))).
    + destruct (L <? c + 1) eqn:?; unfold allowed; cbn; lia.
    + destruct (L <? c + 1) eqn:?; unfold rejected; cbn; lia.
    + destruct (L <? c + 1); reflexivity.
    + exact Hnext.
    + destruct (c =? 0); reflexivity.
  - rewrite Hget. cbn [js_ge]. rewrite Z.add_0_r.
    refine (conj _ (conj _ (conj _ (conj _ _)))).
    + destruct (L <=? c) eqn:?; unfold allowed; cbn; lia.
    + destruct (L <=? c) eqn:?; unfold rejected; cbn; lia.
    + destruct (L <=? c); reflexivity.
    + exact Hstate.
    + reflexivity.
Qed.

Lemma settle_step outcome resp db c t :
  state db c t ->
  let s := exec (intercept options context bound (handler_of outcome resp)) db in
  let counts := successful outcome && negb im in
  state (final s) (c + (if counts then 1 else 0)) t /\
  count_expire (log s) = (if counts && (c =? 0) then 1%nat else 0%nat).
Proof.
  intros Hstate s counts. subst s counts. unfold intercept. fold im.
  destruct (key_state_bump _ _ _ Hstate) as (Hn & Hfirst & Hnext).
  destruct outcome as [code | ]; cbn [handler_of emissions tap successful andb].
  - rewrite exec_bind, exec_settle. unfold settles, bound.
    cbn [rateLimitTracker bind_tracker statusCode default from_option id].
    fold key. replace (truthy_string (Some key)) with true
      by (symmetry; apply generateRateLimitKey_truthy).
    rewrite andb_true_r, (andb_comm (negb im)).
    destruct ((code <? 400) && negb im); cbv zeta; cbn [value final log exec andb].
    + rewrite app_nil_r. fold key. rewrite Hfirst in *. split; [exact Hnext | ].
      destruct (c =? 0); reflexivity.
    + rewrite Z.add_0_r. split; [exact Hstate | reflexivity].
  - cbn [exec final log]. rewrite Z.add_0_r. split; [exact Hstate | reflexivity].
Qed.

End RequestStep.

(** ** A timeline of requests within one window *)

Lemma elapsed_nonneg events : 0 <= elapsed events.
Proof. induction events as [ | [d | o] rest IH]; cbn [elapsed]; lia. Qed.

Ltac decide_tests :=
  repeat match goal with
         | |- context [?x =? ?y] => destruct (x =? y) eqn:?; try lia
         | |- context [?x <? ?y] => destruct (x <? y) eqn:?; try lia
         | |- context [?x <=? ?y] => destruct (x <=? y) eqn:?; try lia
         end.

Section Timeline.
Variable this : RateLimitGuardClass.
Variable options : RateLimitOptions.
Variable context : ExecutionContext.
Variable request : Request.
Variable response : Response.
Hypothesis Hskip : skip_of context = false.

Local Abbreviation L := (effectiveLimit_of options context).
Local Abbreviation D := (effectiveDuration_of options context).
Local Abbreviation key := (generateRateLimitKey context (getTracker this request)).
Local Abbreviation gm := (guard_countAllRequests options context).
Local Abbreviation im := (interceptor_countAllRequests options context).
Local Abbreviation state := (key_state key D).

Lemma request_step outcome db c t :
  state db c t ->
  let e := exec (handleRequest this options context request response
                   (handler_of outcome)) db in
  allowed (value e) = verdict gm L c /\
  rejected (value e) = negb (verdict gm L c) /\
  state (final e) (counted gm im L c outcome) t /\
  count_expire (log e)
  = (if (c =? 0) && (0 <? counted gm im L c outcome) then 1%nat else 0%nat).
Proof.
  intros Hstate e. subst e. unfold handleRequest. rewrite exec_bind.
  destruct (guard_step this options context request response Hskip db c t Hstate)
    as (Hallowed & Hrejected & Hbound & Hnext & Hexp).
  set (g := exec (canActivate this options context request response) db) in *.
  assert (c = 0 \/ 1 <= c) as Hc by (destruct Hstate as [_ [(-> & _) | (? & _)]]; lia).
  unfold counted. unfold allowed in Hallowed.
  destruct (completion (value g)) as [[ | ] | err] eqn:Hcompletion.
  - rewrite <- Hallowed. cbn [andb].
    rewrite exec_bind. cbn [value final log exec]. rewrite app_nil_r.
    rewrite Hbound.
    destruct (settle_step this options context request outcome
                (response_after (value g)) (final g) _ t Hnext) as (Hfinal & Hexp').
    unfold allowed, rejected in *. rewrite Hcompletion in *.
    refine (conj eq_refl (conj eq_refl (conj Hfinal _))).
    unfold count_expire in *. rewrite filter_app, length_app, Hexp, Hexp'.
    destruct gm, (successful outcome && negb im), Hc as [-> | Hc];
      cbn [andb Z.add Z.eqb Z.ltb Z.compare Pos.add Nat.add]; try reflexivity;
      decide_tests; cbn [andb Nat.add]; try reflexivity; try lia.
  - unfold rejected in Hrejected. rewrite Hcompletion, <- Hallowed in Hrejected.
    discriminate Hrejected.
  - rewrite <- Hallowed. cbn [andb value final log exec].
    rewrite app_nil_r, Z.add_0_r.
    unfold allowed, rejected in *. rewrite Hcompletion in *.
    refine (conj eq_refl (conj eq_refl (conj Hnext _))).
    rewrite Hexp.
    destruct gm, Hc as [-> | Hc]; cbn [andb Z.add Z.eqb Z.ltb Z.compare]; try reflexivity;
      decide_tests; cbn [andb]; try reflexivity; try lia.
Qed.


Lemma elapse_step d db c t :
  state db c t -> 0 <= d < t ->
  state (Redis.elapse d db) c (if c =? 0 then t else t - d).
Proof.
  intros [Ht [(-> & Hdb & ->) | (Hc & Hdb)]] Hd.
  - split; [exact Ht | left].
    rewrite elapse_lookup, Hdb. repeat split; reflexivity.
  - assert ((c =? 0) = false) as -> by lia.
    split; [lia | right]. split; [exact Hc | ].
    rewrite elapse_lookup, Hdb. cbn. unfold Redis.age. cbn.
    destruct (t - d <=? 0) eqn:?; [lia | reflexivity].
Qed.

Lemma counted_mono c outcome : c <= counted gm im L c outcome.
Proof.
  unfold counted.
  destruct gm, (verdict _ L c && successful outcome && negb im); lia.
Qed.

Lemma tally_mono outs : forall c, c <= snd (tally gm im L c outs).
Proof.
  induction outs as [ | o rest IH]; intros c; cbn [tally snd]; [lia | ].
  pose proof (counted_mono c o). pose proof (IH (counted gm im L c o)). lia.
Qed.

(** The pipeline on the store follows the counter arithmetic of [tally]. *)
Lemma serve_tally events :
  forall db c t,
    state db c t -> elapsed events < t ->
    let r := serve this options context request response events db in
    let spec := tally gm im L c (requests events) in
    map allowed (activations r) = fst spec /\
    map rejected (activations r) = map negb (fst spec) /\
    (exists t', state (keyspace r) (snd spec) t') /\
    count_expire (calls r) = (if (c =? 0) && (0 <? snd spec) then 1%nat else 0%nat).
Proof.
  induction events as [ | [d | outcome] rest IH]; intros db c t Hstate Hwindow.
  - cbn. repeat split; [exists t; exact Hstate | ].
    destruct (c =? 0) eqn:?; [ | reflexivity].
    assert (c = 0) as -> by lia. reflexivity.
  - cbn [serve requests elapsed] in *.
    pose proof (elapsed_nonneg rest) as Hrest.
    apply (IH _ c (if c =? 0 then t else t - Z.of_nat d)).
    + apply elapse_step; [exact Hstate | lia].
    + destruct (c =? 0); lia.
  - cbn [serve requests elapsed tally activations keyspace calls fst snd map] in *.
    destruct (request_step outcome db c t Hstate) as (Hallowed & Hrejected & Hnext & Hexp).
    destruct (IH _ _ t Hnext Hwindow) as (IHa & IHr & IHs & IHe).
    cbv zeta in IHa, IHr, IHs, IHe.
    rewrite Hallowed, Hrejected, IHa, IHr.
    repeat split; [exact IHs | ].
    unfold count_expire in *. rewrite filter_app, length_app, Hexp, IHe.
    pose proof (counted_mono c outcome) as Hmono1.
    pose proof (tally_mono (requests rest) (counted gm im L c outcome)) as Hmono2.
    assert (c = 0 \/ 1 <= c) as [-> | Hc]
      by (destruct Hstate as [_ [(-> & _) | (? & _)]]; lia).
    + cbn [Z.eqb andb]. decide_tests; reflexivity.
    + decide_tests; cbn [andb Nat.add]; reflexivity.
Qed.

(** Counting every request: the i-th request of the window is let through
    exactly when [i <= L]. *)
Lemma tally_count_all outs :
  gm = true -> im = true ->
  forall c,
    fst (tally gm im L c outs)
    = map (fun i => c + Z.of_nat i <=? L) (seq 1 (length outs)) /\
    snd (tally gm im L c outs) = c + Z.of_nat (length outs).
Proof.
  intros Hgm Him. rewrite Hgm, Him.
  induction outs as [ | o rest IH]; intros c.
  - cbn. split; [reflexivity | lia].
  - cbn [tally fst snd length seq map].
    assert (counted true true L c o = c + 1) as ->.
    { unfold counted. cbn [negb]. rewrite andb_false_r. lia. }
    destruct (IH (c + 1)) as [-> ->]. split; [ | lia].
    cbn [verdict]. f_equal.
    rewrite <- (seq_shift (length rest) 1), map_map. apply map_ext. intros i.
    f_equal. lia.
Qed.


End Timeline.

(* ===================================================================== *)
(** * The decision rule and the window (C1) *)
(* ===================================================================== *)

Section DecisionRule.
Variable this : RateLimitGuardClass.
Variable options : RateLimitOptions.
Variable context : ExecutionContext.
Variable request : Request.
Variable response : Response.
Hypothesis Hskip : skip_of context = false.

Local Abbreviation L := (effectiveLimit_of options context).
Local Abbreviation D := (effectiveDuration_of options context).
Local Abbreviation key := (generateRateLimitKey context (getTracker this request)).

(** Count-all mode: the guard asks for the TTL, increments, and rejects
    exactly when the post-increment value is strictly above the limit. *)
Lemma decision_rule_count_all tr a :
  guard_countAllRequests options context = true ->
  Runs (canActivate this options context request response) tr a ->
  exists t n rest,
    tr = EvTtl key t :: EvIncr key n :: rest /\
    (rejected a = true <-> L < n) /\
    (allowed a = true <-> n <= L).
Proof.
  intros Hmode Hrun.
  destruct (canActivate_count_all _ _ _ _ _ _ _ Hskip Hmode Hrun) as (t & n & -> & ->).
  exists t, n, (if n =? 1 then [EvExpire key D] else []).
  split; [reflexivity | ]. cbn [js_gt].
  destruct (L <? n) eqn:Hgt; unfold rejected, allowed; cbn; split; split;
    intros; try discriminate; try reflexivity; lia.
Qed.

(** Success-only mode: the guard asks for the TTL, reads the counter and
    nothing else, takes a missing value as 0, and rejects exactly when the
    value read is at or above the limit. *)
Lemma decision_rule_success_only tr a :
  guard_countAllRequests options context = false ->
  Runs (canActivate this options context request response) tr a ->
  exists t v,
    tr = [EvTtl key t; EvGet key v] /\
    (rejected a = true <-> js_ge (count_of_value v) (Num L) = true) /\
    (allowed a = true <-> js_ge (count_of_value v) (Num L) = false) /\
    (v = None -> count_of_value v = Num 0).
Proof.
  intros Hmode Hrun.
  destruct (canActivate_success_only _ _ _ _ _ _ _ Hskip Hmode Hrun) as (t & v & -> & ->).
  exists t, v. split; [reflexivity | ].
  destruct (js_ge (count_of_value v) (Num L)); unfold rejected, allowed; cbn;
    repeat split; intros; subst; try discriminate; reflexivity.
Qed.

(** Where both stages resolve to count-all, the i-th request of a window is
    let through exactly when [i <= L]. *)
Lemma count_all_window events db :
  interceptor_countAllRequests options context = true ->
  db !! key = None ->
  elapsed events < D ->
  let r := serve this options context request response events db in
  map allowed (activations r)
  = map (fun i => Z.of_nat i <=? L) (seq 1 (length (requests events))) /\
  map rejected (activations r)
  = map (fun i => negb (Z.of_nat i <=? L)) (seq 1 (length (requests events))) /\
  Redis.counter key (keyspace r) = Z.of_nat (length (requests events)).
Proof.
  intros Him Hfresh Hwindow r.
  pose proof (count_all_both _ _ Him) as Hgm.
  pose proof (elapsed_nonneg events) as Hnonneg.
  assert (key_state key D db 0 D) as Hstate.
  { split; [lia | left]. repeat split; assumption. }
  destruct (serve_tally this options context request response Hskip events db 0 D
              Hstate Hwindow) as (Ha & Hr & (t' & Hfinal) & _).
  destruct (tally_count_all options context (requests events) Hgm Him 0) as (Hv & Hc).
  fold r in Ha, Hr, Hfinal. cbv zeta in Ha, Hr, Hfinal.
  rewrite Hv in Ha, Hr. rewrite Hc in Hfinal.
  repeat split.
  - exact Ha.
  - rewrite Hr, map_map. reflexivity.
  - destruct Hfinal as [_ [(H0 & Hnone & _) | (_ & Hsome)]];
      unfold Redis.counter; [rewrite Hnone | rewrite Hsome]; cbn; lia.
Qed.

End DecisionRule.

(** C1.  The rule itself is as claimed ([decision_rule_count_all],
    [decision_rule_success_only]), and so is the window where both stages
    agree on the mode ([count_all_window]).  On the route below the effective
    policy is count-all with limit 2 (the per-route [countAllRequests: false]
    is not truthy, the module options say [true]), yet of two successful
    requests in one window the second is rejected: the guard counts each
    request and the interceptor, which resolves the flag differently, counts
    it again. *)
Theorem opt_out_route_counted_twice :
  guard_countAllRequests App.rateLimitConfig Scenario.rateOptOut = true /\
  effectiveLimit_of App.rateLimitConfig Scenario.rateOptOut = 2 /\
  let key := generateRateLimitKey Scenario.rateOptOut "127.0.0.1" in
  let r := serve RateLimitGuard.class App.rateLimitConfig Scenario.rateOptOut
             App.localhost (App.fresh HasSetHeader)
             [Incoming (Responds 200); Incoming (Responds 200)] ∅ in
  map allowed (activations r) = [true; false] /\
  map rejected (activations r) = [false; true] /\
  calls r = [EvTtl key (-2); EvIncr key 1; EvExpire key 10; EvIncr key 2;
             EvTtl key 10; EvIncr key 3].
Proof. vm_compute. repeat split. Qed.

(* ===================================================================== *)
(** * The two stages resolve the mode differently (C2) *)
(* ===================================================================== *)

(** C2.  The guard resolves the flag with [||], the interceptor with [??]:
    they differ exactly when the route says [countAllRequests: false] and the
    module options say [true].  There the guard resolves [true] and the
    interceptor [false], and one successful request is incremented by both
    stages. *)
Theorem countAllRequests_resolved_differently :
  (forall options context,
      guard_countAllRequests options context
      <> interceptor_countAllRequests options context
      <-> customOptions_of context ≫= Decorator.countAllRequests = Some false
          /\ Options.countAllRequests options = Some true) /\
  guard_countAllRequests App.rateLimitConfig Scenario.rateOptOut = true /\
  interceptor_countAllRequests App.rateLimitConfig Scenario.rateOptOut = false /\
  let key := generateRateLimitKey Scenario.rateOptOut "127.0.0.1" in
  let e := exec (handleRequest RateLimitGuard.class App.rateLimitConfig
                   Scenario.rateOptOut App.localhost (App.fresh HasSetHeader)
                   (handler_of (Responds 200))) (∅ : gmap string Redis.Entry) in
  log e = [EvTtl key (-2); EvIncr key 1; EvExpire key 10; EvIncr key 2] /\
  Redis.counter key (final e) = 2.
Proof.
  split.
  - intros options context.
    unfold guard_countAllRequests, interceptor_countAllRequests.
    destruct (customOptions_of context ≫= Decorator.countAllRequests) as [[ | ] | ];
      destruct (Options.countAllRequests options) as [[ | ] | ]; cbn;
      split; try (intros Hne; exfalso; apply Hne; reflexivity);
      try (intros [Hroute Hmodule]; discriminate);
      try (intros _; split; reflexivity); intros _; discriminate.
  - vm_compute. repeat split.
Qed.

(* ===================================================================== *)
(** * Settlement in success-only mode (C3) *)
(* ===================================================================== *)




(* ===================================================================== *)
(** * The TTL is set on the first increment of a window, and only then (C4) *)
(* ===================================================================== *)

(** C4.  In the guard (count-all mode) the calls are [ttl], [incr] and, exactly
    when [incr] answered 1, [expire] with the effective duration; in
    success-only mode the guard calls neither [incr] nor [expire].  In the
    interceptor a settlement is either no call at all or [incr] followed,
    exactly when it answered 1, by [expire] with the same effective duration.
    On the store, in a window that starts with the counter missing, [expire]
    is called exactly once if anything was counted and never otherwise. *)
Theorem expire_on_first_increment
    (this : RateLimitGuardClass) (options : RateLimitOptions)
    (context : ExecutionContext) (request : Request) (response : Response)
    (settled : Request) (emitted : Response) (countAllRequests : bool)
    (trG trS : list StoreEvent) (a : Activation)
    (events : list Event) (db : gmap string Redis.Entry) :
  let key := generateRateLimitKey context (getTracker this request) in
  let D := effectiveDuration_of options context in
  skip_of context = false ->
  Runs (canActivate this options context request response) trG a ->
  Runs (settle options context countAllRequests settled emitted) trS tt ->
  db !! key = None ->
  elapsed events < D ->
  let r := serve this options context request response events db in
  (if guard_countAllRequests options context
   then exists t n,
       trG = EvTtl key t :: EvIncr key n :: (if n =? 1 then [EvExpire key D] else [])
   else exists t v, trG = [EvTtl key t; EvGet key v]) /\
  (trS = [] \/
   exists k n, rateLimitTracker settled = Some k /\
               trS = EvIncr k n :: (if n =? 1 then [EvExpire k D] else [])) /\
  count_expire (calls r)
  = (if 0 <? Redis.counter key (keyspace r) then 1%nat else 0%nat).
Proof.
  intros key D Hskip HrunG HrunS Hfresh Hwindow r.
  refine (conj _ (conj _ _)).
  - destruct (guard_countAllRequests options context) eqn:Hmode.
    + destruct (canActivate_count_all _ _ _ _ _ _ _ Hskip Hmode HrunG) as (t & n & Htr & _).
      exists t, n. exact Htr.
    + destruct (canActivate_success_only _ _ _ _ _ _ _ Hskip Hmode HrunG) as (t & v & Htr & _).
      exists t, v. exact Htr.
  - apply settle_runs in HrunS.
    destruct (settles settled countAllRequests emitted); [right | left]; assumption.
  - pose proof (elapsed_nonneg events) as Hnonneg.
    assert (key_state key D db 0 D) as Hstate.
    { split; [subst D; lia | left]. repeat split; assumption. }
    destruct (serve_tally this options context request response Hskip events db 0 D
                Hstate Hwindow) as (_ & _ & (t' & Hfinal) & Hexp).
    fold r in Hfinal, Hexp. cbv zeta in Hfinal, Hexp. rewrite Hexp. cbn [Z.eqb andb].
    destruct Hfinal as [_ [(-> & Hnone & _) | (Hpos & Hsome)]];
      unfold Redis.counter; subst key; [rewrite Hnone | rewrite Hsome]; cbn [from_option Redis.stored].
    + reflexivity.
    + reflexivity.
Qed.

Lemma expire_on_first_increment_witness :
  let key := generateRateLimitKey App.rateLimitAll "127.0.0.1" in
  let events := [Incoming (Responds 200); Elapse 20; Incoming Fails; Incoming (Responds 200)] in
  let r := serve RateLimitGuard.class App.rateLimitConfig App.rateLimitAll App.localhost
             (App.fresh HasSetHeader) events ∅ in
  skip_of App.rateLimitAll = false /\
  elapsed events < effectiveDuration_of App.rateLimitConfig App.rateLimitAll /\
  count_expire (calls r) = (if 0 <? Redis.counter key (keyspace r) then 1%nat else 0%nat).
Proof.
  intros key events r.
  assert (skip_of App.rateLimitAll = false) as Hskip by reflexivity.
  assert (elapsed events < effectiveDuration_of App.rateLimitConfig App.rateLimitAll)
    as Hwindow by (vm_compute; reflexivity).
  refine (conj Hskip (conj Hwindow _)).
  pose (g := exec (canActivate RateLimitGuard.class App.rateLimitConfig App.rateLimitAll
                     App.localhost (App.fresh HasSetHeader)) (∅ : gmap string Redis.Entry)).
  assert (Runs (settle App.rateLimitConfig App.rateLimitAll false
                  (bind_tracker App.localhost key) (App.fresh HasSetHeader))
            [EvIncr key 1; EvExpire key 60] tt) as HrunS.
  { vm_compute. repeat constructor. }
  apply (expire_on_first_increment RateLimitGuard.class App.rateLimitConfig App.rateLimitAll
           App.localhost (App.fresh HasSetHeader) (bind_tracker App.localhost key)
           (App.fresh HasSetHeader) false (log g) _ (value g) events ∅
           Hskip (exec_Runs _ _) HrunS (lookup_empty _) Hwindow).
Defined.

(* ===================================================================== *)
(** * Response attributes (C5, C6) *)
(* ===================================================================== *)

Lemma clamp_remaining_max (limit n : Z) :
  clamp_remaining (js_sub (Num limit) (Num n)) = Num (Z.max 0 (limit - n)).
Proof.
  unfold clamp_remaining. cbn [js_sub js_lt].
  destruct (limit - n <? 0) eqn:?; f_equal; lia.
Qed.


Lemma setHeadersLimit_spec response t :
  api response <> HasNeither ->
  setHeadersLimit response t
  = with_header response "Retry-After" (attribute (api response) (Num t)).
Proof.
  intros Hapi. unfold setHeadersLimit.
  destruct (api response) eqn:Hkind; [ | | congruence]; reflexivity.
Qed.



(** C6.  On a route that is not bypassed, when the guard rejects: the
    response (one with a header-setting method) is the incoming response with
    Retry-After set to the TTL answered by the first store call, replaced by
    the effective duration when negative; every other attribute, the limit,
    remaining and reset ones among them, is as it was; and the promise
    rejects with status 429 and the message resolved as: the [errorMessage]
    of the handler's [@RateLimit], else that of the module options, else
    'Too Many Requests'. *)
Theorem reject_retry_after
    (this : RateLimitGuardClass) (options : RateLimitOptions)
    (context : ExecutionContext) (request : Request) (response : Response)
    (tr : list StoreEvent) (a : Activation) :
  let key := generateRateLimitKey context (getTracker this request) in
  let D := effectiveDuration_of options context in
  getErrorMessage this = RateLimitGuard.getErrorMessage ->
  skip_of context = false ->
  api response <> HasNeither ->
  Runs (canActivate this options context request response) tr a ->
  rejected a = true ->
  exists t rest,
    tr = EvTtl key t :: rest /\
    response_after a
    = with_header response "Retry-After"
        (attribute (api response) (Num (if t <? 0 then D else t))) /\
    (forall name, name <> "Retry-After" ->
       responseHeaders (response_after a) !! name = responseHeaders response !! name) /\
    completion a
    = Throw {| message :=
                 match RATE_LIMIT_OPTIONS (handlerMetadata context) ≫= Decorator.errorMessage with
                 | Some perRoute => perRoute
                 | None =>
                     match Options.errorMessage options with
                     | Some global => global
                     | None => "Too Many Requests"
                     end
                 end;
               status := 429 |}.
Proof.
  intros key D Hinherit Hskip Hapi Hrun Hrejected.
  assert (forall t,
             reject this options context (bind_tracker request key) response (window D t)
             = {| completion :=
                    Throw {| message :=
                      match RATE_LIMIT_OPTIONS (handlerMetadata context)
                              ≫= Decorator.errorMessage with
                      | Some perRoute => perRoute
                      | None =>
                          match Options.errorMessage options with
                          | Some global => global
                          | None => "Too Many Requests"
                          end
                      end; status := 429 |};
                  request_after := bind_tracker request key;
                  response_after :=
                    with_header response "Retry-After"
                      (attribute (api response) (Num (window D t))) |}) as Hreject.
  { intros t. unfold reject. rewrite Hinherit, (setHeadersLimit_spec _ _ Hapi).
    unfold RateLimitException, RateLimitGuard.getErrorMessage, reflector_get, TOO_MANY_REQUESTS.
    destruct (RATE_LIMIT_OPTIONS (handlerMetadata context) ≫= Decorator.errorMessage);
      [reflexivity | ].
    destruct (Options.errorMessage options); reflexivity. }
  assert (exists t rest, tr = EvTtl key t :: rest /\
            a = reject this options context (bind_tracker request key) response (window D t))
    as (t & rest & -> & ->).
  { destruct (guard_countAllRequests options context) eqn:Hmode.
    - destruct (canActivate_count_all _ _ _ _ _ _ _ Hskip Hmode Hrun) as (t & n & -> & Ha).
      exists t, (EvIncr key n :: (if n =? 1 then [EvExpire key D] else [])).
      split; [reflexivity | ].
      destruct (js_gt _ _); subst a; [reflexivity | discriminate Hrejected].
    - destruct (canActivate_success_only _ _ _ _ _ _ _ Hskip Hmode Hrun) as (t & v & -> & Ha).
      exists t, [EvGet key v]. split; [reflexivity | ].
      destruct (js_ge _ _); subst a; [reflexivity | discriminate Hrejected]. }
  exists t, rest. rewrite Hreject. cbn [response_after completion].
  refine (conj eq_refl (conj eq_refl (conj _ eq_refl))).
  intros name Hname. cbn [with_header responseHeaders].
  apply lookup_insert_ne. congruence.
Qed.

Lemma reject_retry_after_witness :
  let key := generateRateLimitKey App.rateLimitAll "127.0.0.1" in
  let db : gmap string Redis.Entry :=
    {[ key := {| Redis.stored := 10; Redis.expiry := Some 42 |} ]} in
  let e := exec (canActivate RateLimitGuard.class App.rateLimitConfig App.rateLimitAll
                   App.localhost (App.fresh HasSetHeader)) db in
  skip_of App.rateLimitAll = false /\
  rejected (value e) = true /\
  response_after (value e)
  = with_header (App.fresh HasSetHeader) "Retry-After" (HNumber (Num 42)) /\
  completion (value e) = Throw {| message := "Rate Limit All"; status := 429 |}.
Proof.
  intros key db e.
  assert (skip_of App.rateLimitAll = false) as Hskip by reflexivity.
  assert (api (App.fresh HasSetHeader) <> HasNeither) as Hapi by discriminate.
  assert (rejected (value e) = true) as Hrejected by (vm_compute; reflexivity).
  refine (conj Hskip (conj Hrejected _)).
  destruct (reject_retry_after RateLimitGuard.class App.rateLimitConfig App.rateLimitAll
              App.localhost (App.fresh HasSetHeader) (log e) (value e)
              eq_refl Hskip Hapi (exec_Runs _ _) Hrejected)
    as (t & rest & Htr & Hresponse & _ & Hcompletion).
  assert (t = 42) as -> by (vm_compute in Htr; congruence).
  split; [exact Hresponse | exact Hcompletion].
Defined.

(* ===================================================================== *)
(** * Bypassed routes (C7) *)
(* ===================================================================== *)

Lemma marked_to_bypass_skip context : marked_to_bypass context -> skip_of context = true.
Proof.
  unfold marked_to_bypass, skip_of, getAllAndOverride, reflector_get.
  intros [-> | [-> ->]]; reflexivity.
Qed.

Lemma settle_unbound options context countAllRequests request response :
  rateLimitTracker request = None ->
  settle options context countAllRequests request response = Ret tt.
Proof.
  intros Hnone. unfold settle. rewrite Hnone. cbn [truthy_string].
  rewrite andb_false_r. reflexivity.
Qed.

(** C7.  On a route marked to bypass limiting, whatever the policy, the
    handler and the store: the guard is the program that returns [true] at
    once, leaving request and response as they are; with no key bound to the
    request the interceptor is the program that does nothing; so the whole
    request makes no store call and leaves any store as it was. *)
Theorem bypass_no_store_access
    (this : RateLimitGuardClass) (options : RateLimitOptions)
    (context : ExecutionContext) (request : Request) (response : Response)
    (handler : Handler) (S : Type) (store : RateLimitStore S) (s : S) :
  marked_to_bypass context ->
  rateLimitTracker request = None ->
  canActivate this options context request response
  = Ret {| completion := Return true; request_after := request;
           response_after := response |} /\
  intercept options context request (handler response) = Ret tt /\
  log (exec (handleRequest this options context request response handler) s) = [] /\
  final (exec (handleRequest this options context request response handler) s) = s /\
  allowed (value (exec (handleRequest this options context request response handler) s))
  = true.
Proof.
  intros Hmarked Hunbound.
  pose proof (marked_to_bypass_skip _ Hmarked) as Hskip.
  assert (canActivate this options context request response
          = Ret {| completion := Return true; request_after := request;
                   response_after := response |}) as Hguard.
  { unfold canActivate. rewrite Hskip. reflexivity. }
  assert (intercept options context request (handler response) = Ret tt) as Hintercept.
  { unfold intercept. apply tap_no_key. intros emitted.
    apply settle_unbound. exact Hunbound. }
  refine (conj Hguard (conj Hintercept _)).
  unfold handleRequest. rewrite Hguard.
  cbn [bind completion request_after response_after].
  rewrite Hintercept. cbn [bind exec log final value]. repeat split.
Qed.

Lemma bypass_no_store_access_witness :
  let db : gmap string Redis.Entry :=
    {[ "other" := {| Redis.stored := 4; Redis.expiry := None |} ]} in
  let e := exec (handleRequest RateLimitGuard.class App.rateLimitConfig App.ignored
                   App.localhost (App.fresh HasSetHeader) (handler_of (Responds 200))) db in
  marked_to_bypass App.ignored /\ log e = [] /\ final e = db /\ allowed (value e) = true.
Proof.
  intros db e.
  assert (marked_to_bypass App.ignored) as Hmarked by (left; reflexivity).
  split; [exact Hmarked | ].
  apply (bypass_no_store_access RateLimitGuard.class App.rateLimitConfig App.ignored
           App.localhost (App.fresh HasSetHeader) (handler_of (Responds 200))
           _ _ db Hmarked eq_refl).
Defined.

(* ===================================================================== *)
(** * The limiting key (C8) *)
(* ===================================================================== *)



(* ===================================================================== *)
(** * The default tracker (C9) *)
(* ===================================================================== *)

(** C9 as stated does not hold: for a request whose resolved address is the
    empty string and whose forwarded-for header is "10.0.0.1", the tracker is
    'unknown'; it is neither the first defined candidate (the empty address)
    nor the first non-empty one (the header). *)
Lemma getTracker_empty_address_counterexample :
  RateLimitGuard.getTracker Scenario.emptyIp = "unknown" /\
  ~ (forall request,
        RateLimitGuard.getTracker request = spec_default_tracker is_defined request) /\
  ~ (forall request,
        RateLimitGuard.getTracker request = spec_default_tracker truthy_string request).
Proof.
  split; [reflexivity | ].
  split; intros Hclaim; specialize (Hclaim Scenario.emptyIp); vm_compute in Hclaim;
    discriminate Hclaim.
Qed.

(** C9, amended.  The tracker is the resolved client address when the
    request has one, else the forwarded-for header; when the value so chosen
    is missing or empty, it is 'unknown'. *)
Theorem getTracker_resolution (request : Request) :
  RateLimitGuard.getTracker request =
  match ip request with
  | Some address => if String.eqb address "" then "unknown" else address
  | None =>
      match forwarded_for request with
      | Some forwarded => if String.eqb forwarded "" then "unknown" else forwarded
      | None => "unknown"
      end
  end.
Proof.
  unfold RateLimitGuard.getTracker, forwarded_for, nullish, truthy_string.
  destruct (ip request) as [address | ].
  - destruct (String.eqb address ""); reflexivity.
  - destruct (headers request ≫= _) as [forwarded | ]; [ | reflexivity].
    destruct (String.eqb forwarded ""); reflexivity.
Qed.

(* ===================================================================== *)
(** * Where the error message is looked up (C10) *)
(* ===================================================================== *)

(** C10.  Limit, duration and [countAllRequests] are resolved from the
    [@RateLimit] options of the handler when it has any, else from those of
    the controller class; the error message is looked up on the handler only.
    So when the handler carries no [errorMessage], a rejection carries the
    module options' message, or 'Too Many Requests', whatever the class
    carries; and on a route whose class alone is decorated, the class-level
    limit, duration and flag are the ones in force. *)
Theorem error_message_handler_only
    (options : RateLimitOptions) (context : ExecutionContext)
    (request : Request) (response : Response)
    (tr : list StoreEvent) (a : Activation) :
  RATE_LIMIT_OPTIONS (handlerMetadata context) ≫= Decorator.errorMessage = None ->
  skip_of context = false ->
  Runs (canActivate RateLimitGuard.class options context request response) tr a ->
  rejected a = true ->
  customOptions_of context
  = nullish (RATE_LIMIT_OPTIONS (handlerMetadata context))
            (RATE_LIMIT_OPTIONS (classMetadata context)) /\
  (forall classOptions,
      RATE_LIMIT_OPTIONS (handlerMetadata context) = None ->
      RATE_LIMIT_OPTIONS (classMetadata context) = Some classOptions ->
      effectiveLimit_of options context
      = or_number (Some (Decorator.limit classOptions)) (Options.limit options) /\
      effectiveDuration_of options context
      = or_number (Some (Decorator.duration classOptions)) (Options.duration options) /\
      guard_countAllRequests options context
      = truthy_bool (Decorator.countAllRequests classOptions)
        || truthy_bool (Options.countAllRequests options)) /\
  RateLimitGuard.getErrorMessage options context
  = default "Too Many Requests" (Options.errorMessage options) /\
  completion a
  = Throw {| message := default "Too Many Requests" (Options.errorMessage options);
             status := 429 |}.
Proof.
  intros Hhandler Hskip Hrun Hrejected.
  assert (customOptions_of context
          = nullish (RATE_LIMIT_OPTIONS (handlerMetadata context))
                    (RATE_LIMIT_OPTIONS (classMetadata context))) as Hcustom.
  { unfold customOptions_of, getAllAndOverride, reflector_get, nullish.
    destruct (RATE_LIMIT_OPTIONS (handlerMetadata context)); [reflexivity | ].
    destruct (RATE_LIMIT_OPTIONS (classMetadata context)); reflexivity. }
  assert (RateLimitGuard.getErrorMessage options context
          = default "Too Many Requests" (Options.errorMessage options)) as Hmessage.
  { unfold RateLimitGuard.getErrorMessage, reflector_get. rewrite Hhandler. reflexivity. }
  refine (conj Hcustom (conj _ (conj Hmessage _))).
  - intros classOptions Hnone Hclass.
    unfold effectiveLimit_of, effectiveDuration_of, guard_countAllRequests.
    rewrite Hcustom, Hnone, Hclass. cbn. rewrite orb_false_r. repeat split.
  - assert (exists t, a = reject RateLimitGuard.class options context
                            (bind_tracker request
                               (generateRateLimitKey context
                                  (getTracker RateLimitGuard.class request)))
                            response t) as (t & ->).
    { destruct (guard_countAllRequests options context) eqn:Hmode.
      - destruct (canActivate_count_all _ _ _ _ _ _ _ Hskip Hmode Hrun) as (t & n & _ & Ha).
        destruct (js_gt _ _); subst a; [eauto | discriminate Hrejected].
      - destruct (canActivate_success_only _ _ _ _ _ _ _ Hskip Hmode Hrun) as (t & v & _ & Ha).
        destruct (js_ge _ _); subst a; [eauto | discriminate Hrejected]. }
    cbn [reject completion getErrorMessage RateLimitGuard.class]. rewrite Hmessage.
    reflexivity.
Qed.

Lemma error_message_handler_only_witness :
  let key := generateRateLimitKey Scenario.classLevel "127.0.0.1" in
  let db : gmap string Redis.Entry :=
    {[ key := {| Redis.stored := 1; Redis.expiry := Some 30 |} ]} in
  let e := exec (canActivate RateLimitGuard.class App.rateLimitConfig Scenario.classLevel
                   App.localhost (App.fresh HasSetHeader)) db in
  rejected (value e) = true /\
  effectiveLimit_of App.rateLimitConfig Scenario.classLevel = 1 /\
  completion (value e) = Throw {| message := "Too Many Requests"; status := 429 |}.
Proof.
  intros key db e.
  assert (rejected (value e) = true) as Hrejected by (vm_compute; reflexivity).
  split; [exact Hrejected | ].
  destruct (error_message_handler_only App.rateLimitConfig Scenario.classLevel
              App.localhost (App.fresh HasSetHeader) (log e) (value e)
              eq_refl eq_refl (exec_Runs _ _) Hrejected)
    as (_ & Hclass & _ & Hcompletion).
  destruct (Hclass _ eq_refl eq_refl) as (Hlimit & _ & _).
  split; [exact Hlimit | exact Hcompletion].
Defined.

(* ===================================================================== *)
(** * Further properties of the two stages, the keys and the module *)
(* ===================================================================== *)

(** ** Routes and their policy *)

(** Every run of the guard on a route that is not bypassed ends in [reject]
    or [allow], on the request with the key bound and the incoming response. *)
Lemma canActivate_outcome this options context request response tr a :
  skip_of context = false ->
  Runs (canActivate this options context request response) tr a ->
  let key := generateRateLimitKey context (getTracker this request) in
  let L := effectiveLimit_of options context in
  let D := effectiveDuration_of options context in
  exists t rest,
    tr = EvTtl key t :: rest /\
    (a = reject this options context (bind_tracker request key) response (window D t) \/
     exists count,
       a = allow L (bind_tracker request key) response (window D t) count /\
       if guard_countAllRequests options context
       then exists n, count = Num n /\ n <= L /\
                      rest = EvIncr key n :: (if n =? 1 then [EvExpire key D] else [])
       else exists v, count = count_of_value v /\ js_ge count (Num L) = false /\
                      rest = [EvGet key v]).
Proof.
  intros Hskip Hrun key L D.
  destruct (guard_countAllRequests options context) eqn:Hmode.
  - destruct (canActivate_count_all _ _ _ _ _ _ _ Hskip Hmode Hrun) as (t & n & -> & ->).
    exists t, (EvIncr key n :: (if n =? 1 then [EvExpire key D] else [])).
    split; [reflexivity | ]. cbn [js_gt].
    destruct (effectiveLimit_of options context <? n) eqn:Hgt; [left; reflexivity | right].
    exists (Num n). split; [reflexivity | ]. exists n. repeat split. subst L. lia.
  - destruct (canActivate_success_only _ _ _ _ _ _ _ Hskip Hmode Hrun) as (t & v & -> & ->).
    exists t, [EvGet key v]. split; [reflexivity | ].
    destruct (js_ge (count_of_value v) (Num (effectiveLimit_of options context))) eqn:Hge;
      [left; reflexivity | right].
    exists (count_of_value v). split; [reflexivity | ]. exists v. repeat split. exact Hge.
Qed.

(** X1.  A route that carries no [@RateLimit] at all, on the handler or on
    the class, is not skipped: the guard limits it with the limit, duration
    and flag of the module options, and goes to the store for it. *)
Theorem undecorated_route_limited
    (this : RateLimitGuardClass) (options : RateLimitOptions)
    (context : ExecutionContext) (request : Request) (response : Response)
    (tr : list StoreEvent) (a : Activation) :
  RATE_LIMIT_OPTIONS (handlerMetadata context) = None ->
  RATE_LIMIT_OPTIONS (classMetadata context) = None ->
  skip_of context = false ->
  Runs (canActivate this options context request response) tr a ->
  effectiveLimit_of options context = Options.limit options /\
  effectiveDuration_of options context = Options.duration options /\
  guard_countAllRequests options context = truthy_bool (Options.countAllRequests options) /\
  (exists t rest,
      tr = EvTtl (generateRateLimitKey context (getTracker this request)) t :: rest
      /\ rest <> []) /\
  rateLimitTracker (request_after a)
  = Some (generateRateLimitKey context (getTracker this request)).
Proof.
  intros Hhandler Hclass Hskip Hrun.
  assert (customOptions_of context = None) as Hcustom.
  { unfold customOptions_of, getAllAndOverride, reflector_get. rewrite Hhandler, Hclass.
    reflexivity. }
  refine (conj _ (conj _ (conj _ (conj _ _)))).
  - unfold effectiveLimit_of. rewrite Hcustom. reflexivity.
  - unfold effectiveDuration_of. rewrite Hcustom. reflexivity.
  - unfold guard_countAllRequests. rewrite Hcustom. cbn. apply orb_false_r.
  - destruct (guard_countAllRequests options context) eqn:Hmode.
    + destruct (canActivate_count_all _ _ _ _ _ _ _ Hskip Hmode Hrun) as (t & n & -> & _).
      eexists _, _. split; [reflexivity | discriminate].
    + destruct (canActivate_success_only _ _ _ _ _ _ _ Hskip Hmode Hrun) as (t & v & -> & _).
      eexists _, _. split; [reflexivity | discriminate].
  - rewrite (canActivate_binds _ _ _ _ _ Hskip _ _ Hrun). reflexivity.
Qed.

Lemma undecorated_route_limited_witness :
  let context := {| className := "AppController"; handlerName := "plain";
                    handlerMetadata := no_metadata; classMetadata := no_metadata |} in
  let e := exec (canActivate RateLimitGuard.class App.rateLimitConfig context
                   App.localhost (App.fresh HasSetHeader))
             (∅ : gmap string Redis.Entry) in
  effectiveLimit_of App.rateLimitConfig context = 5 /\
  effectiveDuration_of App.rateLimitConfig context = 30 /\
  (exists t rest, log e = EvTtl (generateRateLimitKey context "127.0.0.1") t :: rest
                  /\ rest <> []).
Proof.
  intros context e.
  destruct (undecorated_route_limited RateLimitGuard.class App.rateLimitConfig context
              App.localhost (App.fresh HasSetHeader) (log e) (value e)
              eq_refl eq_refl eq_refl (exec_Runs _ _))
    as (Hlimit & Hduration & _ & Hcalls & _).
  refine (conj Hlimit (conj Hduration Hcalls)).
Defined.

(** X2.  A per-route limit of 0 does not close the route: 0 counts as not
    given and the module limit is in force, so that with a module limit of
    at least 1 the first request of a window is let through, in either mode.
    A per-route duration of 0 stands for the module duration in the same
    way. *)
Theorem zero_limit_is_module_limit
    (this : RateLimitGuardClass) (options : RateLimitOptions)
    (context : ExecutionContext) (request : Request) (response : Response)
    (custom : RateLimitDecoratorOptions) (db : gmap string Redis.Entry) :
  let key := generateRateLimitKey context (getTracker this request) in
  skip_of context = false ->
  customOptions_of context = Some custom ->
  Decorator.limit custom = 0 ->
  1 <= Options.limit options ->
  db !! key = None ->
  effectiveLimit_of options context = Options.limit options /\
  effectiveDuration_of options context
  = (if Decorator.duration custom =? 0 then Options.duration options
     else Decorator.duration custom) /\
  allowed (value (exec (canActivate this options context request response) db)) = true.
Proof.
  intros key Hskip Hcustom Hzero Hmodule Hfresh.
  assert (effectiveLimit_of options context = Options.limit options) as Hlimit.
  { unfold effectiveLimit_of. rewrite Hcustom. cbn. rewrite Hzero. reflexivity. }
  refine (conj Hlimit (conj _ _)).
  - unfold effectiveDuration_of. rewrite Hcustom. reflexivity.
  - rewrite (exec_canActivate this options context request response Hskip).
    cbv zeta. unfold Redis.INCR, Redis.GET. fold key. rewrite Hfresh, Hlimit.
    destruct (guard_countAllRequests options context); cbn.
    + destruct (Options.limit options <? 1) eqn:?; [lia | reflexivity].
    + destruct (Options.limit options <=? 0) eqn:?; [lia | reflexivity].
Qed.

Lemma zero_limit_is_module_limit_witness :
  let context :=
    {| className := "AppController"; handlerName := "zero";
       handlerMetadata :=
         RateLimit {| Decorator.duration := 10; Decorator.limit := 0;
                      Decorator.errorMessage := None;
                      Decorator.countAllRequests := None |} no_metadata;
       classMetadata := no_metadata |} in
  effectiveLimit_of App.rateLimitConfig context = 5 /\
  allowed (value (exec (canActivate RateLimitGuard.class App.rateLimitConfig context
                          App.localhost (App.fresh HasSetHeader))
                    (∅ : gmap string Redis.Entry))) = true.
Proof.
  intros context.
  destruct (zero_limit_is_module_limit RateLimitGuard.class App.rateLimitConfig context
              App.localhost (App.fresh HasSetHeader) _ ∅ eq_refl eq_refl eq_refl
              ltac:(cbn; lia) (lookup_empty _)) as (Hlimit & _ & Hallowed).
  split; [exact Hlimit | exact Hallowed].
Defined.

(** X3.  [@SkipRateLimit] wins over [@RateLimit]: a handler that carries
    both, in either order, and a handler with its own [@RateLimit] under a
    controller class that carries [@SkipRateLimit], are let through without
    a store call, whatever the options say. *)
Theorem skip_wins_over_rate_limit
    (this : RateLimitGuardClass) (options : RateLimitOptions)
    (context : ExecutionContext) (request : Request) (response : Response)
    (custom : RateLimitDecoratorOptions) (target : Metadata) :
  handlerMetadata context = RateLimit custom (SkipRateLimit target)
  \/ handlerMetadata context = SkipRateLimit (RateLimit custom target)
  \/ (handlerMetadata context = RateLimit custom target
      /\ SKIP_RATE_LIMIT target = None
      /\ SKIP_RATE_LIMIT (classMetadata context) = Some true) ->
  canActivate this options context request response
  = Ret {| completion := Return true; request_after := request;
           response_after := response |}.
Proof.
  intros Hdecorated.
  assert (skip_of context = true) as Hskip.
  { apply marked_to_bypass_skip. unfold marked_to_bypass.
    destruct Hdecorated as [-> | [-> | (-> & Hnone & Hclass)]].
    - left. reflexivity.
    - left. reflexivity.
    - right. split; assumption. }
  unfold canActivate. rewrite Hskip. reflexivity.
Qed.

Lemma skip_wins_over_rate_limit_witness :
  let custom := {| Decorator.duration := 60; Decorator.limit := 3;
                   Decorator.errorMessage := None;
                   Decorator.countAllRequests := Some true |} in
  let context :=
    {| className := "SecureController"; handlerName := "secureData";
       handlerMetadata := RateLimit custom no_metadata;
       classMetadata := SkipRateLimit no_metadata |} in
  log (exec (canActivate RateLimitGuard.class App.rateLimitConfig context
               App.localhost (App.fresh HasSetHeader))
         (∅ : gmap string Redis.Entry)) = [].
Proof.
  intros custom context.
  rewrite (skip_wins_over_rate_limit RateLimitGuard.class App.rateLimitConfig context
             App.localhost (App.fresh HasSetHeader) custom no_metadata
             (or_intror (or_intror (conj eq_refl (conj eq_refl eq_refl))))).
  reflexivity.
Defined.

(** ** The text behind a key *)

(** A name without '-' followed by '-' is read back unambiguously. *)
Lemma dash_split (a a' r r' : string) :
  dash_free a = true -> dash_free a' = true ->
  (a ++ "-" ++ r = a' ++ "-" ++ r')%string -> a = a' /\ r = r'.
Proof.
  revert a'.
  induction a as [ | c a IH]; intros [ | c' a'] Ha Ha' Heq; cbn [dash_free] in *.
  - change (String "-" r = String "-" r') in Heq.
    injection Heq as ->. split; reflexivity.
  - change (String "-" r = String c' (a' ++ "-" ++ r')%string) in Heq.
    injection Heq as <- _. discriminate Ha'.
  - change (String c (a ++ "-" ++ r)%string = String "-" r') in Heq.
    injection Heq as -> _. discriminate Ha.
  - change (String c (a ++ "-" ++ r)%string = String c' (a' ++ "-" ++ r')%string) in Heq.
    injection Heq as -> Heq.
    apply andb_prop in Ha as [_ Ha]. apply andb_prop in Ha' as [_ Ha'].
    destruct (IH a' Ha Ha' Heq) as [-> ->]. split; reflexivity.
Qed.

(** X4.  The key is the hash of class name, handler name and tracker joined
    by '-'.  When the two names contain no '-', the joined text determines
    all three parts, whatever the tracker contains: two requests are given
    the same text only if they agree on the class, the handler and the
    tracker. *)
Theorem hashed_text_injective
    (context context' : ExecutionContext) (data data' : string) :
  dash_free (className context) = true -> dash_free (handlerName context) = true ->
  dash_free (className context') = true -> dash_free (handlerName context') = true ->
  generateRateLimitKey context data = sha256 (hashed_text context data) /\
  (hashed_text context data = hashed_text context' data' ->
   className context = className context' /\
   handlerName context = handlerName context' /\
   data = data').
Proof.
  intros Hc Hh Hc' Hh'. split; [reflexivity | ].
  unfold hashed_text. intros Heq.
  apply dash_split in Heq as [Hclass Heq]; [ | assumption | assumption].
  apply dash_split in Heq as [Hhandler Hdata]; [ | assumption | assumption].
  repeat split; assumption.
Qed.

Lemma hashed_text_injective_witness :
  hashed_text App.rate "10-0-0-1" <> hashed_text App.rateLimitAll "10-0-0-1".
Proof.
  intros Heq.
  destruct (hashed_text_injective App.rate App.rateLimitAll "10-0-0-1" "10-0-0-1"
              eq_refl eq_refl eq_refl eq_refl) as [_ Hparts].
  destruct (Hparts Heq) as (_ & Hhandler & _). discriminate Hhandler.
Defined.

(** X5.  Where a name contains '-', routes share keys: the route with class
    [a-b] and handler [c] has the key of the route with class [a] and handler
    [b-c], for every tracker; and the handler [b] with tracker [c-d] has the
    key of the handler [b-c] with tracker [d]. *)
Theorem key_collision_on_dash (a b c d : string)
    (handlerM classM handlerM' classM' : Metadata) :
  generateRateLimitKey
    {| className := a ++ "-" ++ b; handlerName := c;
       handlerMetadata := handlerM; classMetadata := classM |} d
  = generateRateLimitKey
      {| className := a; handlerName := b ++ "-" ++ c;
         handlerMetadata := handlerM'; classMetadata := classM' |} d
  /\
  generateRateLimitKey
    {| className := a; handlerName := b;
       handlerMetadata := handlerM; classMetadata := classM |} (c ++ "-" ++ d)
  = generateRateLimitKey
      {| className := a; handlerName := b ++ "-" ++ c;
         handlerMetadata := handlerM'; classMetadata := classM' |} d.
Proof.
  unfold generateRateLimitKey. cbn [className handlerName].
  assert (forall x y z : string, ((x ++ y) ++ z = x ++ (y ++ z))%string) as Hassoc.
  { intros x y z. induction x as [ | ch x IH]; [reflexivity | ].
    change (String ch ((x ++ y) ++ z)%string = String ch (x ++ y ++ z)%string).
    f_equal. exact IH. }
  split; f_equal; rewrite !Hassoc; reflexivity.
Qed.

(** ** Trackers *)

Lemma truthy_string_nonempty (v : option string) :
  truthy_string v = true -> exists s, v = Some s /\ s <> "".
Proof.
  destruct v as [s | ]; [ | discriminate]. cbn. intros Hs. exists s. split; [reflexivity | ].
  intros ->. discriminate Hs.
Qed.

Lemma RateLimitGuard_getTracker_nonempty request :
  RateLimitGuard.getTracker request <> "".
Proof.
  unfold RateLimitGuard.getTracker.
  destruct (truthy_string _) eqn:Htruthy; [ | discriminate].
  apply truthy_string_nonempty in Htruthy as (s & -> & Hs). exact Hs.
Qed.

(** X6.  The tracker of the default guard and that of the custom guard are
    never the empty string.  The custom guard's tracker is the
    [authorization] header when the request has one that is not empty, and
    the default tracker in every other case. *)
Theorem tracker_never_empty (request : Request) :
  RateLimitGuard.getTracker request <> "" /\
  CustomRateLimitGuard.getTracker request <> "" /\
  CustomRateLimitGuard.getTracker request
  = match headers request ≫= (fun h => h !! "authorization") with
    | Some credentials =>
        if String.eqb credentials "" then RateLimitGuard.getTracker request
        else credentials
    | None => RateLimitGuard.getTracker request
    end.
Proof.
  refine (conj (RateLimitGuard_getTracker_nonempty request) (conj _ _)).
  - unfold CustomRateLimitGuard.getTracker.
    destruct (truthy_string _) eqn:Htruthy; [ | apply RateLimitGuard_getTracker_nonempty].
    apply truthy_string_nonempty in Htruthy as (s & -> & Hs). exact Hs.
  - unfold CustomRateLimitGuard.getTracker, truthy_string.
    destruct (headers request ≫= _) as [credentials | ]; [ | reflexivity].
    destruct (String.eqb credentials ""); reflexivity.
Qed.

(** X7.  A request that has no address, or an empty one, and no usable
    forwarded-for header is tracked as 'unknown' by the default guard: all
    such clients of a route share one key, hence one counter. *)
Theorem unaddressed_clients_share_key
    (request request' : Request) (context : ExecutionContext) :
  truthy_string (nullish (ip request) (forwarded_for request)) = false ->
  truthy_string (nullish (ip request') (forwarded_for request')) = false ->
  RateLimitGuard.getTracker request = "unknown" /\
  generateRateLimitKey context (getTracker RateLimitGuard.class request)
  = generateRateLimitKey context (getTracker RateLimitGuard.class request').
Proof.
  unfold RateLimitGuard.class. cbn [getTracker].
  unfold RateLimitGuard.getTracker, forwarded_for. intros -> ->. split; reflexivity.
Qed.

Lemma unaddressed_clients_share_key_witness :
  generateRateLimitKey App.rate (getTracker RateLimitGuard.class Scenario.emptyIp)
  = generateRateLimitKey App.rate
      (getTracker RateLimitGuard.class
         {| ip := None; headers := None; rateLimitTracker := None |}).
Proof.
  exact (proj2 (unaddressed_clients_share_key Scenario.emptyIp
                  {| ip := None; headers := None; rateLimitTracker := None |}
                  App.rate eq_refl eq_refl)).
Defined.

(** X8.  The custom guard tracks by the [authorization] header whenever the
    request has a non-empty one, whatever its address: two requests with the
    same header get the same key, from whichever addresses they come. *)
Theorem custom_tracker_precedence (request request' : Request)
    (context : ExecutionContext) (credentials : string) :
  headers request ≫= (fun h => h !! "authorization") = Some credentials ->
  headers request' ≫= (fun h => h !! "authorization") = Some credentials ->
  credentials <> "" ->
  getTracker CustomRateLimitGuard.class request = credentials /\
  generateRateLimitKey context (getTracker CustomRateLimitGuard.class request)
  = generateRateLimitKey context (getTracker CustomRateLimitGuard.class request').
Proof.
  unfold CustomRateLimitGuard.class, CustomRateLimitGuard.getTracker. cbn [getTracker].
  intros -> -> Hne. cbn [truthy_string].
  assert (String.eqb credentials "" = false) as ->.
  { destruct (String.eqb_spec credentials ""); [contradiction | reflexivity]. }
  split; reflexivity.
Qed.

Lemma custom_tracker_precedence_witness :
  let office := {| ip := Some "10.0.0.1";
                   headers := Some {[ "authorization" := "Bearer abc" ]};
                   rateLimitTracker := None |} in
  let home := {| ip := Some "192.168.1.7";
                 headers := Some {[ "authorization" := "Bearer abc" ]};
                 rateLimitTracker := None |} in
  getTracker CustomRateLimitGuard.class office = "Bearer abc" /\
  generateRateLimitKey App.rate (getTracker CustomRateLimitGuard.class office)
  = generateRateLimitKey App.rate (getTracker CustomRateLimitGuard.class home).
Proof.
  intros office home.
  apply (custom_tracker_precedence office home App.rate "Bearer abc");
    [reflexivity | reflexivity | discriminate].
Defined.

(** ** What the guard does to the response *)

(** X9.  When the guard lets a request through, the remaining quota it
    computed is never negative, so the [remaining < 0 ? 0 : remaining] of
    [setHeadersAllow] never replaces it: in count-all mode the count is at
    most the limit, in success-only mode it is below the limit (remaining is
    at least 1), and a count that is not a number gives a remaining that is
    not a number, which no comparison turns into 0. *)
Theorem remaining_never_clamped
    (this : RateLimitGuardClass) (options : RateLimitOptions)
    (context : ExecutionContext) (request : Request) (response : Response)
    (tr : list StoreEvent) (a : Activation) :
  let key := generateRateLimitKey context (getTracker this request) in
  let L := effectiveLimit_of options context in
  let D := effectiveDuration_of options context in
  skip_of context = false ->
  Runs (canActivate this options context request response) tr a ->
  allowed a = true ->
  exists t count,
    a = allow L (bind_tracker request key) response (window D t) count /\
    clamp_remaining (js_sub (Num L) count) = js_sub (Num L) count /\
    forall remaining,
      js_sub (Num L) count = Num remaining ->
      if guard_countAllRequests options context then 0 <= remaining else 1 <= remaining.
Proof.
  intros key L D Hskip Hrun Hallowed.
  destruct (canActivate_outcome _ _ _ _ _ _ _ Hskip Hrun) as (t & rest & _ & Hcases).
  destruct Hcases as [-> | (count & -> & Hcount)]; [discriminate Hallowed | ].
  exists t, count. split; [reflexivity | ].
  fold L in Hcount |- *.
  destruct (guard_countAllRequests options context).
  - destruct Hcount as (n & -> & Hn & _). unfold clamp_remaining. cbn [js_sub js_lt].
    split.
    + destruct (L - n <? 0) eqn:?; [lia | reflexivity].
    + intros remaining [= <-]. lia.
  - destruct Hcount as (v & -> & Hge & _).
    destruct (count_of_value v) as [c | ]; unfold clamp_remaining; cbn [js_sub js_lt js_ge] in *.
    + split.
      * destruct (L - c <? 0) eqn:?; [lia | reflexivity].
      * intros remaining [= <-]. lia.
    + split; [reflexivity | discriminate].
Qed.

Lemma remaining_never_clamped_witness :
  let e := exec (canActivate RateLimitGuard.class App.rateLimitConfig App.rate
                   App.localhost (App.fresh HasSetHeader))
             (∅ : gmap string Redis.Entry) in
  exists t count,
    value e = allow 2 (bind_tracker App.localhost
                         (generateRateLimitKey App.rate "127.0.0.1"))
                (App.fresh HasSetHeader) (window 10 t) count /\
    clamp_remaining (js_sub (Num 2) count) = js_sub (Num 2) count.
Proof.
  intros e.
  assert (allowed (value e) = true) as Hallowed by (vm_compute; reflexivity).
  destruct (remaining_never_clamped RateLimitGuard.class App.rateLimitConfig App.rate
              App.localhost (App.fresh HasSetHeader) (log e) (value e)
              eq_refl (exec_Runs _ _) Hallowed) as (t & count & Ha & Hclamp & _).
  exists t, count. split; [exact Ha | exact Hclamp].
Defined.




(** X11.  A response object with neither [setHeader] nor [header] leaves
    the guard as it entered it: the decision is taken all the same, but no
    attribute is written. *)
Theorem no_header_method_no_attribute
    (this : RateLimitGuardClass) (options : RateLimitOptions)
    (context : ExecutionContext) (request : Request) (response : Response)
    (tr : list StoreEvent) (a : Activation) :
  api response = HasNeither ->
  Runs (canActivate this options context request response) tr a ->
  response_after a = response /\
  (skip_of context = false -> allowed a || rejected a = true).
Proof.
  intros Hapi Hrun.
  destruct (skip_of context) eqn:Hskip.
  - destruct (canActivate_skip _ _ _ _ _ _ _ Hskip Hrun) as (_ & ->).
    split; [reflexivity | discriminate].
  - split; [ | intros _; exact (canActivate_settles _ _ _ _ _ Hskip _ _ Hrun)].
    destruct (canActivate_outcome _ _ _ _ _ _ _ Hskip Hrun) as (t & rest & _ & Hcases).
    destruct Hcases as [-> | (count & -> & _)].
    + cbn [reject response_after]. unfold setHeadersLimit. rewrite Hapi. reflexivity.
    + cbn [allow response_after]. unfold setHeadersAllow. rewrite Hapi. reflexivity.
Qed.

Lemma no_header_method_no_attribute_witness :
  let e := exec (canActivate RateLimitGuard.class App.rateLimitConfig App.rate
                   App.localhost (App.fresh HasNeither))
             (∅ : gmap string Redis.Entry) in
  response_after (value e) = App.fresh HasNeither.
Proof.
  intros e.
  exact (proj1 (no_header_method_no_attribute RateLimitGuard.class App.rateLimitConfig
                  App.rate App.localhost (App.fresh HasNeither) (log e) (value e)
                  eq_refl (exec_Runs _ _))).
Defined.

Lemma setHeadersAllow_frame response remaining limit t :
  api (setHeadersAllow response remaining limit t) = api response /\
  statusCode (setHeadersAllow response remaining limit t) = statusCode response /\
  forall name,
    name <> "X-RateLimit-Limit" -> name <> "X-RateLimit-Remaining" ->
    name <> "X-RateLimit-Reset" ->
    responseHeaders (setHeadersAllow response remaining limit t) !! name
    = responseHeaders response !! name.
Proof.
  unfold setHeadersAllow.
  destruct (api response) eqn:Hkind; cbn [with_header api statusCode responseHeaders];
    (refine (conj _ (conj eq_refl _)); [assumption || reflexivity | ]);
    intros name H1 H2 H3; rewrite ?lookup_insert_ne by congruence; reflexivity.
Qed.

Lemma setHeadersLimit_frame response t :
  api (setHeadersLimit response t) = api response /\
  statusCode (setHeadersLimit response t) = statusCode response /\
  forall name,
    name <> "Retry-After" ->
    responseHeaders (setHeadersLimit response t) !! name
    = responseHeaders response !! name.
Proof.
  unfold setHeadersLimit.
  destruct (api response) eqn:Hkind; cbn [with_header api statusCode responseHeaders];
    (refine (conj _ (conj eq_refl _)); [assumption || reflexivity | ]);
    intros name H1; rewrite ?lookup_insert_ne by congruence; reflexivity.
Qed.

(** X12.  What the guard never touches.  Whatever the route, the store
    answers and the verdict: the status code of the response stays as it
    was; of the request only the key binding changes.  A request that is let
    through gets no Retry-After, and no attribute besides the three
    X-RateLimit ones changes; a request that is rejected keeps every
    attribute but Retry-After. *)
Theorem guard_frame
    (this : RateLimitGuardClass) (options : RateLimitOptions)
    (context : ExecutionContext) (request : Request) (response : Response)
    (tr : list StoreEvent) (a : Activation) :
  Runs (canActivate this options context request response) tr a ->
  statusCode (response_after a) = statusCode response /\
  api (response_after a) = api response /\
  ip (request_after a) = ip request /\
  headers (request_after a) = headers request /\
  forall name,
    (if allowed a
     then name <> "X-RateLimit-Limit" /\ name <> "X-RateLimit-Remaining" /\
          name <> "X-RateLimit-Reset"
     else name <> "Retry-After") ->
    responseHeaders (response_after a) !! name = responseHeaders response !! name.
Proof.
  intros Hrun.
  destruct (skip_of context) eqn:Hskip.
  - destruct (canActivate_skip _ _ _ _ _ _ _ Hskip Hrun) as (_ & ->).
    cbn. repeat split.
  - destruct (canActivate_outcome _ _ _ _ _ _ _ Hskip Hrun) as (t & rest & _ & Hcases).
    destruct Hcases as [-> | (count & -> & _)].
    + cbn [reject response_after request_after bind_tracker ip headers].
      destruct (setHeadersLimit_frame response
                  (window (effectiveDuration_of options context) t)) as (Hapi & Hstatus & Hrest).
      refine (conj Hstatus (conj Hapi (conj eq_refl (conj eq_refl _)))).
      intros name Hname. apply Hrest. exact Hname.
    + cbn [allow response_after request_after bind_tracker ip headers].
      destruct (setHeadersAllow_frame response
                  (js_sub (Num (effectiveLimit_of options context)) count)
                  (effectiveLimit_of options context)
                  (window (effectiveDuration_of options context) t))
        as (Hapi & Hstatus & Hrest).
      refine (conj Hstatus (conj Hapi (conj eq_refl (conj eq_refl _)))).
      intros name (H1 & H2 & H3). apply Hrest; assumption.
Qed.

Lemma guard_frame_witness :
  let e := exec (canActivate RateLimitGuard.class App.rateLimitConfig App.rate
                   App.localhost (App.fresh HasSetHeader))
             (∅ : gmap string Redis.Entry) in
  statusCode (response_after (value e)) = 200 /\
  responseHeaders (response_after (value e)) !! "Retry-After" = None.
Proof.
  intros e.
  destruct (guard_frame RateLimitGuard.class App.rateLimitConfig App.rate
              App.localhost (App.fresh HasSetHeader) (log e) (value e) (exec_Runs _ _))
    as (Hstatus & _ & _ & _ & Hrest).
  split; [exact Hstatus | ].
  rewrite Hrest; [reflexivity | ].
  replace (allowed (value e)) with true by (vm_compute; reflexivity).
  repeat split; discriminate.
Defined.

(** X13.  The verdict does not depend on the response object: against the
    same store answers, the guard makes the same calls and settles the same
    way, binding the same key, whatever response it is handed. *)
Theorem decision_ignores_response
    (this : RateLimitGuardClass) (options : RateLimitOptions)
    (context : ExecutionContext) (request : Request) (response response' : Response)
    (tr : list StoreEvent) (a : Activation) :
  Runs (canActivate this options context request response) tr a ->
  exists a',
    Runs (canActivate this options context request response') tr a' /\
    completion a' = completion a /\
    request_after a' = request_after a.
Proof.
  unfold canActivate. intros Hrun.
  destruct (skip_of context).
  - inversion Hrun; subst. eexists. split; [constructor | split; reflexivity].
  - destruct (guard_countAllRequests options context);
      unfold ttl, incr, get, expire in *; cbn [bind] in *.
    + inversion Hrun as [ | ? ? t tr1 ? Hrun1 | | | ]; subst; clear Hrun.
      inversion Hrun1 as [ | | | ? ? n tr2 ? Hrun2 | ]; subst; clear Hrun1.
      cbn [js_gt] in *.
      destruct (n =? 1) eqn:Hfirst; cbn [bind] in Hrun2;
        destruct (effectiveLimit_of options context <? n) eqn:Hgt; repeat run_step;
        (eexists; split;
         [ apply RunsTtl, RunsIncr; rewrite Hfirst; cbn [bind]; rewrite Hgt;
           repeat constructor
         | split; reflexivity ]).
    + inversion Hrun as [ | ? ? t tr1 ? Hrun1 | | | ]; subst; clear Hrun.
      inversion Hrun1 as [ | | ? ? v tr2 ? Hrun2 | | ]; subst; clear Hrun1.
      destruct (js_ge (count_of_value v) _) eqn:Hge; repeat run_step;
        (eexists; split;
         [ apply RunsTtl, RunsGet; rewrite Hge; constructor
         | split; reflexivity ]).
Qed.

Lemma decision_ignores_response_witness :
  let e := exec (canActivate RateLimitGuard.class App.rateLimitConfig App.rate
                   App.localhost (App.fresh HasSetHeader))
             (∅ : gmap string Redis.Entry) in
  exists a',
    Runs (canActivate RateLimitGuard.class App.rateLimitConfig App.rate
            App.localhost (App.fresh HasNeither)) (log e) a' /\
    completion a' = completion (value e).
Proof.
  intros e.
  destruct (decision_ignores_response RateLimitGuard.class App.rateLimitConfig App.rate
              App.localhost (App.fresh HasSetHeader) (App.fresh HasNeither)
              (log e) (value e) (exec_Runs _ _)) as (a' & Hrun & Hcompletion & _).
  exists a'. split; [exact Hrun | exact Hcompletion].
Defined.

(** ** The interceptor over all the values a handler emits *)

Lemma count_incr_cons ev tr :
  count_incr (ev :: tr) = ((if is_incr ev then 1 else 0) + count_incr tr)%nat.
Proof.
  unfold count_incr. rewrite filter_cons.
  destruct (is_incr ev); destruct (decide _) as [Hyes | Hno]; cbn [length Nat.add];
    try reflexivity; [exfalso; apply Hno; exact I | destruct Hyes].
Qed.

Lemma count_expire_cons ev tr :
  count_expire (ev :: tr) = ((if is_expire ev then 1 else 0) + count_expire tr)%nat.
Proof.
  unfold count_expire. rewrite filter_cons.
  destruct (is_expire ev); destruct (decide _) as [Hyes | Hno]; cbn [length Nat.add];
    try reflexivity; [exfalso; apply Hno; exact I | destruct Hyes].
Qed.

Lemma count_incr_app tr1 tr2 :
  count_incr (tr1 ++ tr2) = (count_incr tr1 + count_incr tr2)%nat.
Proof. unfold count_incr. rewrite filter_app, length_app. reflexivity. Qed.

Lemma count_expire_app tr1 tr2 :
  count_expire (tr1 ++ tr2) = (count_expire tr1 + count_expire tr2)%nat.
Proof. unfold count_expire. rewrite filter_app, length_app. reflexivity. Qed.

(** The number of emitted values that satisfy a test. *)
Lemma length_filter_cons (test : Response -> bool) response rest :
  length (filter test (response :: rest))
  = ((if test response then 1 else 0) + length (filter test rest))%nat.
Proof.
  rewrite filter_cons.
  destruct (test response); destruct (decide _) as [Hyes | Hno]; cbn [length Nat.add];
    try reflexivity; [exfalso; apply Hno; exact I | destruct Hyes].
Qed.

Section Emissions.
Variable options : RateLimitOptions.
Variable context : ExecutionContext.
Variable request : Request.
Variable countAllRequests : bool.

Lemma tap_settle_runs emitted :
  forall tr u,
    Runs (tap (settle options context countAllRequests request) emitted) tr u ->
    count_incr tr = length (filter (settles request countAllRequests) emitted) /\
    Forall (fun ev => rateLimitTracker request = Some (event_key ev)) tr /\
    (count_expire tr <= count_incr tr)%nat.
Proof.
  induction emitted as [ | response rest IH]; intros tr u Hrun; cbn [tap] in Hrun.
  - inversion Hrun; subst. repeat split; [constructor | reflexivity].
  - apply Runs_bind_inv in Hrun as (tr1 & tr2 & u1 & Hhead & Htail & ->).
    apply settle_runs in Hhead. destruct (IH _ _ Htail) as (IHn & IHk & IHe).
    rewrite count_incr_app, count_expire_app, length_filter_cons.
    destruct (settles request countAllRequests response).
    + destruct Hhead as (key & n & Hkey & ->).
      rewrite count_incr_cons, count_expire_cons. cbn [is_incr is_expire].
      destruct (n =? 1).
      * rewrite count_incr_cons, count_expire_cons. cbn [is_incr is_expire].
        change (count_incr []) with 0%nat. change (count_expire []) with 0%nat.
        repeat split; [lia | repeat constructor; assumption | lia].
      * change (count_incr []) with 0%nat. change (count_expire []) with 0%nat.
        repeat split; [lia | repeat constructor; assumption | lia].
    + subst tr1. change (count_incr []) with 0%nat. change (count_expire []) with 0%nat.
      repeat split; [lia | assumption | lia].
Qed.

Lemma settles_emitted emitted :
  length (filter (settles request countAllRequests) emitted)
  = if negb countAllRequests && truthy_string (rateLimitTracker request)
    then length (filter below_threshold emitted)
    else 0%nat.
Proof.
  induction emitted as [ | response rest IH]; [destruct (_ && _); reflexivity | ].
  rewrite !length_filter_cons, IH. unfold settles, below_threshold.
  destruct (negb countAllRequests && truthy_string (rateLimitTracker request));
    reflexivity.
Qed.

End Emissions.

(** X14.  The interceptor counts per emitted value, not per request.  With
    [countAllRequests] resolved to false and a key bound to the request,
    [incr] is called once for every value the handler emits while the
    response status is below 400, also for values emitted before an error;
    in every other case it is never called.  Every call goes to the bound
    key, and [expire] is called at most as often as [incr]. *)
Theorem interceptor_counts_emissions
    (options : RateLimitOptions) (context : ExecutionContext) (request : Request)
    (handled : Observable) (tr : list StoreEvent) (u : unit) :
  Runs (intercept options context request handled) tr u ->
  count_incr tr
  = (if negb (interceptor_countAllRequests options context)
        && truthy_string (rateLimitTracker request)
     then length (filter below_threshold (emissions handled))
     else 0%nat) /\
  Forall (fun ev => rateLimitTracker request = Some (event_key ev)) tr /\
  (count_expire tr <= count_incr tr)%nat.
Proof.
  unfold intercept. intros Hrun.
  destruct (tap_settle_runs _ _ _ _ _ _ _ Hrun) as (Hn & Hkeys & Hexpire).
  refine (conj _ (conj Hkeys Hexpire)). rewrite Hn. apply settles_emitted.
Qed.

Lemma interceptor_counts_emissions_witness :
  let key := generateRateLimitKey App.rate "127.0.0.1" in
  let stream :=
    {| emissions := [App.fresh HasSetHeader; App.fresh HasSetHeader;
                     {| api := HasSetHeader; statusCode := 500; responseHeaders := ∅ |}];
       errored := true |} in
  let e := exec (intercept Scenario.successOnlyConfig App.rate
                   (bind_tracker App.localhost key) stream)
             (∅ : gmap string Redis.Entry) in
  count_incr (log e) = 2%nat.
Proof.
  intros key stream e.
  destruct (interceptor_counts_emissions Scenario.successOnlyConfig App.rate
              (bind_tracker App.localhost key) stream (log e) (value e) (exec_Runs _ _))
    as (Hn & _).
  exact Hn.
Defined.

(** ** Other keys *)

Lemma exec_frame {A} (p : Prog A) (other : string) :
  forall db : gmap string Redis.Entry,
    Forall (fun ev => event_key ev <> other) (log (exec p db)) ->
    final (exec p db) !! other = db !! other.
Proof.
  induction p as [a | key k IH | key k IH | key k IH | key seconds k IH];
    intros db Hkeys; cbn [exec store_ttl store_get store_incr store_expire RedisAdapter] in *.
  - reflexivity.
  - cbn [log final] in *. inversion Hkeys; subst. apply IH. assumption.
  - cbn [log final] in *. inversion Hkeys; subst. apply IH. assumption.
  - destruct (Redis.INCR key db) as [n db1] eqn:Hincr. cbn [log final] in *.
    inversion Hkeys as [ | ? ? Hkey Hrest]; subst. cbn [event_key] in Hkey.
    rewrite IH by assumption.
    unfold Redis.INCR in Hincr.
    destruct (db !! key); injection Hincr as <- <-; apply lookup_insert_ne; assumption.
  - cbn [log final] in *.
    inversion Hkeys as [ | ? ? Hkey Hrest]; subst. cbn [event_key] in Hkey.
    rewrite IH by assumption.
    unfold Redis.EXPIRE. destruct (db !! key); [ | reflexivity].
    destruct (seconds <=? 0); [apply lookup_delete_ne | apply lookup_insert_ne]; assumption.
Qed.

(** Every store call of a request goes to the key of the request. *)
Lemma canActivate_keys this options context request response tr a :
  skip_of context = false ->
  Runs (canActivate this options context request response) tr a ->
  Forall (fun ev => event_key ev = generateRateLimitKey context (getTracker this request)) tr.
Proof.
  intros Hskip Hrun.
  destruct (guard_countAllRequests options context) eqn:Hmode.
  - destruct (canActivate_count_all _ _ _ _ _ _ _ Hskip Hmode Hrun) as (t & n & -> & _).
    destruct (n =? 1); repeat constructor.
  - destruct (canActivate_success_only _ _ _ _ _ _ _ Hskip Hmode Hrun) as (t & v & -> & _).
    repeat constructor.
Qed.

Lemma handleRequest_keys this options context request response handler tr a :
  skip_of context = false ->
  Runs (handleRequest this options context request response handler) tr a ->
  Forall (fun ev => event_key ev = generateRateLimitKey context (getTracker this request)) tr.
Proof.
  intros Hskip Hrun. unfold handleRequest in Hrun.
  apply Runs_bind_inv in Hrun as (tr1 & tr2 & a0 & Hguard & Hrest & ->).
  apply Forall_app. split; [exact (canActivate_keys _ _ _ _ _ _ _ Hskip Hguard) | ].
  pose proof (canActivate_binds _ _ _ _ _ Hskip _ _ Hguard) as Hbound.
  destruct (completion a0) as [[ | ] | err].
  - apply Runs_bind_inv in Hrest as (trI & trR & u & Hint & Hret & ->).
    inversion Hret; subst. rewrite app_nil_r.
    unfold intercept in Hint.
    destruct (tap_settle_runs _ _ _ _ _ _ _ Hint) as (_ & Hkeys & _).
    rewrite Hbound in Hkeys. cbn [rateLimitTracker bind_tracker] in Hkeys.
    eapply Forall_impl; [exact Hkeys | ].
    intros ev [= ->]. reflexivity.
  - inversion Hrest; subst. constructor.
  - inversion Hrest; subst. constructor.
Qed.

(** X15.  A request changes nothing in the store but the entry under its
    own key: whatever the handler emits, every store call of the two stages
    goes to the key of the request, and every other key of the keyspace
    holds after the request what it held before. *)
Theorem other_keys_untouched
    (this : RateLimitGuardClass) (options : RateLimitOptions)
    (context : ExecutionContext) (request : Request) (response : Response)
    (handler : Handler) (db : gmap string Redis.Entry) (other : string) :
  let key := generateRateLimitKey context (getTracker this request) in
  let e := exec (handleRequest this options context request response handler) db in
  skip_of context = false ->
  other <> key ->
  Forall (fun ev => event_key ev = key) (log e) /\
  final e !! other = db !! other.
Proof.
  intros key e Hskip Hother.
  pose proof (handleRequest_keys _ _ _ _ _ _ _ _ Hskip (exec_Runs _ db : Runs _ (log e) (value e)))
    as Hkeys.
  split; [exact Hkeys | ].
  apply exec_frame. eapply Forall_impl; [exact Hkeys | ].
  intros ev Hev. cbn beta in Hev. rewrite Hev. intros Heq. apply Hother. symmetry. exact Heq.
Qed.

Lemma other_keys_untouched_witness :
  let other := generateRateLimitKey App.rateLimitAll "127.0.0.1" in
  let db : gmap string Redis.Entry :=
    {[ other := {| Redis.stored := 7; Redis.expiry := Some 40 |} ]} in
  let e := exec (handleRequest RateLimitGuard.class App.rateLimitConfig App.rate
                   App.localhost (App.fresh HasSetHeader) (handler_of (Responds 200))) db in
  final e !! other = Some {| Redis.stored := 7; Redis.expiry := Some 40 |}.
Proof.
  intros other db e.
  destruct (other_keys_untouched RateLimitGuard.class App.rateLimitConfig App.rate
              App.localhost (App.fresh HasSetHeader) (handler_of (Responds 200)) db other
              eq_refl) as (_ & Hframe).
  - vm_compute. discriminate.
  - etransitivity; [exact Hframe | apply lookup_singleton_eq].
Defined.

(** ** Quotas over a window *)

Section Quota.
Variable this : RateLimitGuardClass.
Variable options : RateLimitOptions.
Variable context : ExecutionContext.
Variable request : Request.
Variable response : Response.
Hypothesis Hskip : skip_of context = false.

Local Abbreviation L := (effectiveLimit_of options context).
Local Abbreviation D := (effectiveDuration_of options context).
Local Abbreviation key := (generateRateLimitKey context (getTracker this request)).
Local Abbreviation gm := (guard_countAllRequests options context).
Local Abbreviation im := (interceptor_countAllRequests options context).

Lemma fresh_key_state (db : gmap string Redis.Entry) :
  db !! key = None -> 0 < D -> key_state key D db 0 D.
Proof. intros Hfresh HD. split; [exact HD | left]. repeat split. exact Hfresh. Qed.

Lemma key_state_counter db c t :
  key_state key D db c t -> Redis.counter key db = c.
Proof.
  intros [_ [(-> & Hnone & _) | (_ & Hsome)]]; unfold Redis.counter;
    [rewrite Hnone | rewrite Hsome]; reflexivity.
Qed.

(** Once the count has reached the limit, no verdict lets a request
    through. *)
Lemma tally_exhausted g i outs :
  forall c, L <= c -> fst (tally g i L c outs) = map (fun _ => false) outs.
Proof.
  induction outs as [ | o rest IH]; intros c Hc; cbn [tally fst map]; [reflexivity | ].
  assert (verdict g L c = false) as Hverdict
    by (unfold verdict; destruct g; decide_tests; reflexivity).
  rewrite Hverdict. f_equal. apply IH.
  unfold counted. rewrite Hverdict. cbn [andb]. destruct g; lia.
Qed.

Lemma tally_quota outs :
  forall c,
    let_through (fst (tally true true L c outs))
    = Z.max 0 (Z.min (Z.of_nat (length outs)) (L - c)).
Proof.
  induction outs as [ | o rest IH]; intros c; cbn [tally fst let_through length].
  - cbn. lia.
  - assert (counted true true L c o = c + 1) as ->.
    { unfold counted. cbn [negb]. rewrite andb_false_r. lia. }
    rewrite IH. cbn [verdict]. destruct (c + 1 <=? L) eqn:?; lia.
Qed.


Lemma tally_failures outs :
  Forall (fun o => successful o = false) outs ->
  forall c, tally false false L c outs = (map (fun _ => c <? L) outs, c).
Proof.
  induction 1 as [ | o rest Hfail _ IH]; intros c; cbn [tally map]; [reflexivity | ].
  assert (counted false false L c o = c) as ->.
  { unfold counted. rewrite Hfail, andb_false_r. cbn [andb]. lia. }
  rewrite IH. reflexivity.
Qed.

End Quota.

(** X16.  Count-all mode, both stages agreeing on it, counter missing at the
    start: of the [n] requests of a window exactly [min n L] are let through
    (none when the limit is not positive), and every request is counted,
    whatever its outcome and whatever the verdict: rejected requests and
    failing handlers use up quota too. *)
Theorem count_all_quota
    (this : RateLimitGuardClass) (options : RateLimitOptions)
    (context : ExecutionContext) (request : Request) (response : Response)
    (events : list Event) (db : gmap string Redis.Entry) :
  let key := generateRateLimitKey context (getTracker this request) in
  let r := serve this options context request response events db in
  let n := Z.of_nat (length (requests events)) in
  skip_of context = false ->
  interceptor_countAllRequests options context = true ->
  db !! key = None ->
  elapsed events < effectiveDuration_of options context ->
  let_through (map allowed (activations r))
  = Z.max 0 (Z.min n (effectiveLimit_of options context)) /\
  Redis.counter key (keyspace r) = n /\
  count_incr (calls r) = length (requests events).
Proof.
  intros key r n Hskip Him Hfresh Hwindow.
  pose proof (count_all_both _ _ Him) as Hgm.
  pose proof (elapsed_nonneg events) as Hnonneg.
  assert (0 < effectiveDuration_of options context) as HD by lia.
  destruct (serve_tally this options context request response Hskip events db 0 _
              (fresh_key_state this options context request db Hfresh HD) Hwindow)
    as (Ha & _ & (t' & Hfinal) & _).
  fold r in Ha, Hfinal. cbv zeta in Ha, Hfinal.
  destruct (tally_count_all options context (requests events) Hgm Him 0) as (_ & Hc).
  rewrite Hc in Hfinal. rewrite Ha, Hgm, Him, tally_quota, Z.sub_0_r.
  refine (conj eq_refl (conj _ _)).
  - exact (key_state_counter _ _ _ _ _ _ _ Hfinal).
  - subst r. clear - Hskip Hgm Him.
    revert db. induction events as [ | [d | outcome] rest IH]; intros db;
      cbn [serve requests calls length]; [reflexivity | apply IH | ].
    rewrite count_incr_app, IH. f_equal.
    pose proof (exec_Runs (handleRequest this options context request response
                             (handler_of outcome)) db) as Hrun.
    apply (handleRequest_runs _ _ _ _ _ Hskip) in Hrun as (tr1 & tr2 & -> & Hguard & Hsettle).
    rewrite Him, andb_false_r in Hsettle. subst tr2. rewrite app_nil_r.
    destruct (canActivate_count_all _ _ _ _ _ _ _ Hskip Hgm Hguard) as (t & m & -> & _).
    rewrite !count_incr_cons. cbn [is_incr].
    destruct (m =? 1); [rewrite count_incr_cons | ]; reflexivity.
Qed.

Lemma count_all_quota_witness :
  let key := generateRateLimitKey App.rate "127.0.0.1" in
  let r := serve RateLimitGuard.class App.rateLimitConfig App.rate App.localhost
             (App.fresh HasSetHeader)
             [Incoming (Responds 200); Incoming Fails; Elapse 3; Incoming (Responds 200)] ∅ in
  let_through (map allowed (activations r)) = 2 /\
  Redis.counter key (keyspace r) = 3.
Proof.
  intros key r.
  destruct (count_all_quota RateLimitGuard.class App.rateLimitConfig App.rate App.localhost
              (App.fresh HasSetHeader)
              [Incoming (Responds 200); Incoming Fails; Elapse 3; Incoming (Responds 200)] ∅
              eq_refl eq_refl (lookup_empty _) ltac:(cbn; lia)) as (Hthrough & Hcounter & _).
  split; [exact Hthrough | exact Hcounter].
Defined.



(** X18.  Success-only mode does not limit requests that fail.  With a
    positive limit and the counter missing at the start, any number of
    requests whose handler throws or answers with a status of 400 or more is
    let through within the window, and the counter is still missing
    afterwards: [incr] is never called. *)
Theorem failures_are_not_limited
    (this : RateLimitGuardClass) (options : RateLimitOptions)
    (context : ExecutionContext) (request : Request) (response : Response)
    (events : list Event) (db : gmap string Redis.Entry) :
  let key := generateRateLimitKey context (getTracker this request) in
  let r := serve this options context request response events db in
  skip_of context = false ->
  guard_countAllRequests options context = false ->
  0 < effectiveLimit_of options context ->
  Forall (fun o => successful o = false) (requests events) ->
  db !! key = None ->
  elapsed events < effectiveDuration_of options context ->
  map allowed (activations r) = map (fun _ => true) (requests events) /\
  keyspace r !! key = None /\
  count_expire (calls r) = 0%nat.
Proof.
  intros key r Hskip Hgm Hlimit Hfail Hfresh Hwindow.
  pose proof (success_only_both _ _ Hgm) as Him.
  pose proof (elapsed_nonneg events) as Hnonneg.
  assert (0 < effectiveDuration_of options context) as HD by lia.
  destruct (serve_tally this options context request response Hskip events db 0 _
              (fresh_key_state this options context request db Hfresh HD) Hwindow)
    as (Ha & _ & (t' & Hfinal) & Hexpire).
  fold r in Ha, Hfinal, Hexpire. cbv zeta in Ha, Hfinal, Hexpire.
  rewrite Hgm, Him, (tally_failures options context _ Hfail) in *.
  cbn [fst snd] in *.
  refine (conj _ (conj _ Hexpire)).
  - rewrite Ha. apply map_ext. intros _. apply Z.ltb_lt. exact Hlimit.
  - destruct Hfinal as [_ [(_ & Hnone & _) | (Hone & _)]]; [exact Hnone | lia].
Qed.

Lemma failures_are_not_limited_witness :
  let r := serve RateLimitGuard.class Scenario.successOnlyConfig App.rate App.localhost
             (App.fresh HasSetHeader)
             [Incoming Fails; Incoming (Responds 404); Incoming (Responds 500);
              Incoming Fails; Incoming (Responds 400)] ∅ in
  map allowed (activations r) = [true; true; true; true; true].
Proof.
  intros r.
  refine (proj1 (failures_are_not_limited RateLimitGuard.class Scenario.successOnlyConfig
                   App.rate App.localhost (App.fresh HasSetHeader)
                   [Incoming Fails; Incoming (Responds 404); Incoming (Responds 500);
                    Incoming Fails; Incoming (Responds 400)] ∅
                   eq_refl eq_refl ltac:(cbn; lia) _ (lookup_empty _) ltac:(cbn; lia))).
  repeat constructor.
Defined.



(** X20.  When the time to live of the key has run out, the window starts
    afresh: whatever the count was, the requests that follow are judged as
    from a missing counter. *)
Theorem window_restarts
    (this : RateLimitGuardClass) (options : RateLimitOptions)
    (context : ExecutionContext) (request : Request) (response : Response)
    (events : list Event) (db : gmap string Redis.Entry) (c t : Z) (pause : nat) :
  let key := generateRateLimitKey context (getTracker this request) in
  let L := effectiveLimit_of options context in
  let D := effectiveDuration_of options context in
  let r := serve this options context request response (Elapse pause :: events) db in
  let spec := tally (guard_countAllRequests options context)
                (interceptor_countAllRequests options context) L 0 (requests events) in
  skip_of context = false ->
  key_state key D db c t ->
  t <= Z.of_nat pause ->
  elapsed events < D ->
  Redis.elapse (Z.of_nat pause) db !! key = None /\
  map allowed (activations r) = fst spec /\
  Redis.counter key (keyspace r) = snd spec /\
  count_expire (calls r) = (if 0 <? snd spec then 1%nat else 0%nat).
Proof.
  intros key L D r spec Hskip Hstate Hpause Hwindow.
  pose proof (elapsed_nonneg events) as Hnonneg.
  assert (Redis.elapse (Z.of_nat pause) db !! key = None) as Hgone.
  { rewrite elapse_lookup.
    destruct Hstate as [Ht [(_ & -> & _) | (_ & ->)]]; [reflexivity | ].
    cbn. unfold Redis.age. cbn. destruct (t - Z.of_nat pause <=? 0) eqn:?; [reflexivity | lia]. }
  split; [exact Hgone | ].
  assert (0 < D) as HD by (subst D; lia).
  destruct (serve_tally this options context request response Hskip events _ 0 _
              (fresh_key_state this options context request _ Hgone HD) Hwindow)
    as (Ha & _ & (t' & Hfinal) & Hexpire).
  cbv zeta in Ha, Hfinal, Hexpire.
  refine (conj Ha (conj _ Hexpire)).
  exact (key_state_counter _ _ _ _ _ _ _ Hfinal).
Qed.

Lemma window_restarts_witness :
  let key := generateRateLimitKey App.rate "127.0.0.1" in
  let db : gmap string Redis.Entry :=
    {[ key := {| Redis.stored := 9; Redis.expiry := Some 4 |} ]} in
  let r := serve RateLimitGuard.class App.rateLimitConfig App.rate App.localhost
             (App.fresh HasSetHeader) [Elapse 4; Incoming (Responds 200)] db in
  map allowed (activations r) = [true] /\ Redis.counter key (keyspace r) = 1.
Proof.
  intros key db r.
  assert (key_state key 10 db 9 4) as Hstate.
  { split; [lia | right]. split; [lia | apply lookup_singleton_eq]. }
  destruct (window_restarts RateLimitGuard.class App.rateLimitConfig App.rate App.localhost
              (App.fresh HasSetHeader) [Incoming (Responds 200)] db 9 4 4 eq_refl
              Hstate ltac:(cbn; lia) ltac:(cbn; lia))
    as (_ & Ha & Hc & _).
  split; [exact Ha | exact Hc].
Defined.

(** ** A counter with or without a time to live *)

Section AnyExpiry.
Variable this : RateLimitGuardClass.
Variable options : RateLimitOptions.
Variable context : ExecutionContext.
Variable request : Request.
Variable response : Response.
Hypothesis Hskip : skip_of context = false.

Local Abbreviation L := (effectiveLimit_of options context).
Local Abbreviation D := (effectiveDuration_of options context).
Local Abbreviation key := (generateRateLimitKey context (getTracker this request)).
Local Abbreviation bound := (bind_tracker request key).
Local Abbreviation gm := (guard_countAllRequests options context).
Local Abbreviation im := (interceptor_countAllRequests options context).

Lemma key_holds_reads db c e :
  key_holds key db c e ->
  count_of_value (Redis.GET key db) = Num c /\
  Redis.TTL key db = default (-1) e /\
  fst (Redis.INCR key db) = c + 1 /\
  (c + 1 =? 1) = false /\
  key_holds key (snd (Redis.INCR key db)) (c + 1) e.
Proof.
  intros [Hc Hdb].
  refine (conj _ (conj _ (conj _ (conj _ (conj _ _))))).
  - unfold Redis.GET. rewrite Hdb. apply count_of_value_pretty.
  - unfold Redis.TTL. rewrite Hdb. reflexivity.
  - rewrite INCR_answer. unfold Redis.counter. rewrite Hdb. reflexivity.
  - lia.
  - lia.
  - rewrite INCR_lookup. unfold Redis.counter. rewrite Hdb. reflexivity.
Qed.

(** The guard on a counter that is there: no [expire], and the response
    attributes are computed from the time to live the key has, or from the
    effective duration when it has none. *)
Lemma held_guard_step db c e :
  key_holds key db c e ->
  let g := exec (canActivate this options context request response) db in
  let t := window D (default (-1) e) in
  let c' := c + (if gm then 1 else 0) in
  allowed (value g) = verdict gm L c /\
  rejected (value g) = negb (verdict gm L c) /\
  request_after (value g) = bound /\
  key_holds key (final g) c' e /\
  count_expire (log g) = 0%nat /\
  response_after (value g)
  = (if verdict gm L c
     then setHeadersAllow response (Num (L - c')) L t
     else setHeadersLimit response t).
Proof.
  intros Hheld g t c'. subst g t c'.
  rewrite (exec_canActivate this options context request response Hskip).
  destruct (key_holds_reads _ _ _ Hheld) as (Hget & Httl & Hn & Hfirst & Hnext).
  cbv zeta. rewrite Httl. unfold verdict.
  destruct gm; cbn [value final log].
  - rewrite Hn, Hfirst. cbn [js_gt].
    rewrite !count_expire_cons. cbn [is_expire].
    destruct (L <? c + 1) eqn:Hgt.
    + assert ((c + 1 <=? L) = false) as -> by lia.
      refine (conj _ (conj _ (conj _ (conj Hnext (conj _ _))))); reflexivity.
    + assert ((c + 1 <=? L) = true) as -> by lia.
      refine (conj _ (conj _ (conj _ (conj Hnext (conj _ _))))); reflexivity.
  - rewrite Hget, Z.add_0_r. cbn [js_ge].
    rewrite !count_expire_cons. cbn [is_expire].
    destruct (L <=? c) eqn:Hge.
    + assert ((c <? L) = false) as -> by lia.
      refine (conj _ (conj _ (conj _ (conj Hheld (conj _ _))))); reflexivity.
    + assert ((c <? L) = true) as -> by lia.
      refine (conj _ (conj _ (conj _ (conj Hheld (conj _ _))))); reflexivity.
Qed.

Lemma held_settle_step outcome resp db c e :
  key_holds key db c e ->
  let s := exec (intercept options context bound (handler_of outcome resp)) db in
  let counts := successful outcome && negb im in
  key_holds key (final s) (c + (if counts then 1 else 0)) e /\
  count_expire (log s) = 0%nat.
Proof.
  intros Hheld s counts. subst s counts. unfold intercept.
  destruct (key_holds_reads _ _ _ Hheld) as (_ & _ & Hn & Hfirst & Hnext).
  destruct outcome as [code | ]; cbn [handler_of emissions tap successful andb].
  - rewrite exec_bind, (exec_settle options context). unfold settles.
    cbn [rateLimitTracker bind_tracker statusCode default from_option id].
    replace (truthy_string (Some key)) with true
      by (symmetry; apply generateRateLimitKey_truthy).
    rewrite andb_true_r, (andb_comm (negb im)).
    destruct ((code <? 400) && negb im); cbv zeta; cbn [value final log exec andb].
    + rewrite app_nil_r, Hn, Hfirst. split; [exact Hnext | ].
      rewrite count_expire_cons. reflexivity.
    + rewrite Z.add_0_r. split; [exact Hheld | reflexivity].
  - cbn [exec final log]. rewrite Z.add_0_r. split; [exact Hheld | reflexivity].
Qed.

Lemma held_request_step outcome db c e :
  key_holds key db c e ->
  let x := exec (handleRequest this options context request response
                   (handler_of outcome)) db in
  allowed (value x) = verdict gm L c /\
  rejected (value x) = negb (verdict gm L c) /\
  key_holds key (final x) (counted gm im L c outcome) e /\
  count_expire (log x) = 0%nat.
Proof.
  intros Hheld x. subst x. unfold handleRequest. rewrite exec_bind.
  destruct (held_guard_step db c e Hheld)
    as (Hallowed & Hrejected & Hbound & Hnext & Hexp & _).
  set (g := exec (canActivate this options context request response) db) in *.
  unfold counted. unfold allowed in Hallowed.
  destruct (completion (value g)) as [[ | ] | err] eqn:Hcompletion.
  - rewrite <- Hallowed. cbn [andb].
    rewrite exec_bind. cbn [value final log exec]. rewrite app_nil_r, Hbound.
    destruct (held_settle_step outcome (response_after (value g)) (final g) _ e Hnext)
      as (Hfinal & Hexp').
    unfold allowed, rejected. rewrite Hcompletion.
    refine (conj eq_refl (conj eq_refl (conj _ _))).
    + rewrite <- Z.add_assoc in Hfinal. rewrite <- Z.add_assoc. exact Hfinal.
    + rewrite count_expire_app, Hexp, Hexp'. reflexivity.
  - unfold rejected in Hrejected. rewrite Hcompletion, <- Hallowed in Hrejected.
    discriminate Hrejected.
  - rewrite <- Hallowed. cbn [andb value final log exec].
    rewrite app_nil_r, Z.add_0_r.
    unfold allowed, rejected. rewrite Hcompletion.
    refine (conj eq_refl (conj eq_refl (conj Hnext Hexp))).
Qed.

Lemma held_forever d db c :
  key_holds key db c None -> key_holds key (Redis.elapse d db) c None.
Proof.
  intros [Hc Hdb]. split; [exact Hc | ]. rewrite elapse_lookup, Hdb. reflexivity.
Qed.

Lemma held_serve events :
  forall db c,
    key_holds key db c None ->
    let r := serve this options context request response events db in
    let spec := tally gm im L c (requests events) in
    map allowed (activations r) = fst spec /\
    map rejected (activations r) = map negb (fst spec) /\
    key_holds key (keyspace r) (snd spec) None /\
    count_expire (calls r) = 0%nat.
Proof.
  induction events as [ | [d | outcome] rest IH]; intros db c Hheld.
  - cbn. refine (conj eq_refl (conj eq_refl (conj Hheld eq_refl))).
  - cbn [serve requests]. apply IH, held_forever, Hheld.
  - cbn [serve requests tally activations keyspace calls fst snd map].
    destruct (held_request_step outcome db c None Hheld)
      as (Hallowed & Hrejected & Hnext & Hexp).
    destruct (IH _ _ Hnext) as (IHa & IHr & IHs & IHe). cbv zeta in IHa, IHr, IHs, IHe.
    rewrite Hallowed, Hrejected, IHa, IHr, count_expire_app, Hexp, IHe.
    refine (conj eq_refl (conj eq_refl (conj IHs eq_refl))).
Qed.

End AnyExpiry.

(** X21.  A counter that is in the store without a time to live never gets
    one: for such a key neither stage calls [expire], however many requests
    come and however much time passes, so the counter only grows.  Once it
    stands at or above the limit, every later request of the client to the
    route is rejected, for ever. *)
Theorem key_without_ttl_never_expires
    (this : RateLimitGuardClass) (options : RateLimitOptions)
    (context : ExecutionContext) (request : Request) (response : Response)
    (events : list Event) (db : gmap string Redis.Entry) (c : Z) :
  let key := generateRateLimitKey context (getTracker this request) in
  let L := effectiveLimit_of options context in
  let r := serve this options context request response events db in
  skip_of context = false ->
  key_holds key db c None ->
  count_expire (calls r) = 0%nat /\
  (exists c', c <= c' /\ key_holds key (keyspace r) c' None) /\
  (L <= c -> map rejected (activations r) = map (fun _ => true) (requests events)).
Proof.
  intros key L r Hskip Hheld.
  destruct (held_serve this options context request response Hskip events db c Hheld)
    as (_ & Hr & Hfinal & Hexpire).
  fold r in Hr, Hfinal, Hexpire. cbv zeta in Hr, Hfinal, Hexpire.
  refine (conj Hexpire (conj _ _)).
  - eexists. split; [ | exact Hfinal]. apply tally_mono.
  - intros Hfull. rewrite Hr, (tally_exhausted options context) by exact Hfull.
    rewrite map_map. reflexivity.
Qed.

Lemma key_without_ttl_never_expires_witness :
  let key := generateRateLimitKey App.rate "127.0.0.1" in
  let db : gmap string Redis.Entry :=
    {[ key := {| Redis.stored := 2; Redis.expiry := None |} ]} in
  let r := serve RateLimitGuard.class App.rateLimitConfig App.rate App.localhost
             (App.fresh HasSetHeader)
             [Incoming (Responds 200); Elapse 3600; Incoming (Responds 200)] db in
  count_expire (calls r) = 0%nat /\
  map rejected (activations r) = [true; true].
Proof.
  intros key db r.
  assert (key_holds key db 2 None) as Hheld
    by (split; [lia | apply lookup_singleton_eq]).
  destruct (key_without_ttl_never_expires RateLimitGuard.class App.rateLimitConfig App.rate
              App.localhost (App.fresh HasSetHeader)
              [Incoming (Responds 200); Elapse 3600; Incoming (Responds 200)] db 2
              eq_refl Hheld) as (Hexpire & _ & Hrejected).
  split; [exact Hexpire | apply Hrejected; cbn; lia].
Defined.

(** X22.  On a rejection the client is told the time the window still has:
    when the counter stands at or above the limit with [t] seconds to live
    and [d < t] seconds pass, the next request is rejected with Retry-After
    [t - d]; the counter of a success-only route is left as it is, that of a
    count-all route is incremented all the same. *)
Theorem retry_after_is_time_left
    (this : RateLimitGuardClass) (options : RateLimitOptions)
    (context : ExecutionContext) (request : Request) (response : Response)
    (db : gmap string Redis.Entry) (c t : Z) (d : nat) :
  let key := generateRateLimitKey context (getTracker this request) in
  let L := effectiveLimit_of options context in
  let g := exec (canActivate this options context request response)
             (Redis.elapse (Z.of_nat d) db) in
  skip_of context = false ->
  api response <> HasNeither ->
  key_holds key db c (Some t) ->
  L <= c ->
  Z.of_nat d < t ->
  rejected (value g) = true /\
  responseHeaders (response_after (value g)) !! "Retry-After"
  = Some (attribute (api response) (Num (t - Z.of_nat d))) /\
  Redis.counter key (final g)
  = c + (if guard_countAllRequests options context then 1 else 0).
Proof.
  intros key L g Hskip Hapi [Hc Hdb] Hfull Hleft. subst key L.
  assert (key_holds (generateRateLimitKey context (getTracker this request))
            (Redis.elapse (Z.of_nat d) db) c (Some (t - Z.of_nat d))) as Hheld.
  { split; [exact Hc | ]. rewrite elapse_lookup, Hdb. cbn. unfold Redis.age. cbn.
    destruct (t - Z.of_nat d <=? 0) eqn:?; [lia | reflexivity]. }
  destruct (held_guard_step this options context request response Hskip _ _ _ Hheld)
    as (_ & Hrejected & _ & [_ Hfinal] & _ & Hresponse).
  fold g in Hrejected, Hfinal, Hresponse. cbv zeta in Hfinal, Hresponse.
  assert (verdict (guard_countAllRequests options context)
            (effectiveLimit_of options context) c = false) as Hverdict
    by (unfold verdict; destruct (guard_countAllRequests options context);
        decide_tests; reflexivity).
  rewrite Hverdict in Hrejected, Hresponse.
  refine (conj Hrejected (conj _ _)).
  - rewrite Hresponse, setHeadersLimit_spec by exact Hapi.
    cbn [with_header responseHeaders default from_option id]. rewrite lookup_insert_eq.
    unfold window. destruct (t - Z.of_nat d <? 0) eqn:?; [lia | reflexivity].
  - unfold Redis.counter. rewrite Hfinal. reflexivity.
Qed.

Lemma retry_after_is_time_left_witness :
  let key := generateRateLimitKey App.rate "127.0.0.1" in
  let db : gmap string Redis.Entry :=
    {[ key := {| Redis.stored := 2; Redis.expiry := Some 10 |} ]} in
  let g := exec (canActivate RateLimitGuard.class App.rateLimitConfig App.rate
                   App.localhost (App.fresh HasHeader)) (Redis.elapse 4 db) in
  responseHeaders (response_after (value g)) !! "Retry-After" = Some (HString "6").
Proof.
  intros key db g.
  assert (key_holds key db 2 (Some 10)) as Hheld
    by (split; [lia | apply lookup_singleton_eq]).
  destruct (retry_after_is_time_left RateLimitGuard.class App.rateLimitConfig App.rate
              App.localhost (App.fresh HasHeader) db 2 10 4 eq_refl
              ltac:(discriminate) Hheld ltac:(cbn; lia) ltac:(lia))
    as (_ & Hretry & _).
  exact Hretry.
Defined.

(** X23.  Success-only mode reads the counter in the guard and increments
    it in the interceptor, after the handler.  When the guard of a second
    request runs before the first one is settled, both are judged on the same
    count: with the counter one below the limit both are let through, and
    after both have succeeded the counter stands above the limit. *)
Theorem success_only_overshoot
    (this : RateLimitGuardClass) (options : RateLimitOptions)
    (context : ExecutionContext) (request : Request) (response : Response)
    (db : gmap string Redis.Entry) (c t : Z) :
  let key := generateRateLimitKey context (getTracker this request) in
  let L := effectiveLimit_of options context in
  let D := effectiveDuration_of options context in
  let guard := canActivate this options context request response in
  let settlement (a : Activation) :=
    intercept options context (request_after a)
      (handler_of (Responds 200) (response_after a)) in
  let g1 := exec guard db in
  let g2 := exec guard (final g1) in
  let s1 := exec (settlement (value g1)) (final g2) in
  let s2 := exec (settlement (value g2)) (final s1) in
  skip_of context = false ->
  guard_countAllRequests options context = false ->
  key_state key D db c t ->
  c + 1 = L ->
  allowed (value g1) = true /\
  allowed (value g2) = true /\
  Redis.counter key (final s2) = L + 1.
Proof.
  intros key L D guard settlement g1 g2 s1 s2 Hskip Hgm Hstate Hlast.
  pose proof (success_only_both _ _ Hgm) as Him.
  destruct (guard_step this options context request response Hskip db c t Hstate)
    as (Ha1 & _ & Hb1 & Hn1 & _).
  fold guard g1 in Ha1, Hb1, Hn1. cbv zeta in Hn1. rewrite Hgm, Z.add_0_r in Hn1.
  destruct (guard_step this options context request response Hskip _ c t Hn1)
    as (Ha2 & _ & Hb2 & Hn2 & _).
  fold guard g2 in Ha2, Hb2, Hn2. cbv zeta in Hn2. rewrite Hgm, Z.add_0_r in Hn2.
  destruct (settle_step this options context request (Responds 200)
              (response_after (value g1)) _ c t Hn2) as (Hn3 & _).
  rewrite <- Hb1 in Hn3. fold (settlement (value g1)) s1 in Hn3. cbv zeta in Hn3.
  destruct (settle_step this options context request (Responds 200)
              (response_after (value g2)) _ _ t Hn3) as (Hn4 & _).
  rewrite <- Hb2 in Hn4. fold (settlement (value g2)) s2 in Hn4. cbv zeta in Hn4.
  rewrite Him in Hn4. cbn [successful negb andb Z.ltb Z.compare Pos.compare
                           Pos.compare_cont] in Hn4.
  rewrite Hgm in Ha1, Ha2. unfold verdict in Ha1, Ha2.
  refine (conj _ (conj _ _)).
  - rewrite Ha1. subst L. lia.
  - rewrite Ha2. subst L. lia.
  - subst key. rewrite (key_state_counter _ _ _ _ _ _ _ Hn4). subst L. lia.
Qed.

Lemma success_only_overshoot_witness :
  let key := generateRateLimitKey App.rate "127.0.0.1" in
  let db : gmap string Redis.Entry :=
    {[ key := {| Redis.stored := 1; Redis.expiry := Some 10 |} ]} in
  let guard := canActivate RateLimitGuard.class Scenario.successOnlyConfig App.rate
                 App.localhost (App.fresh HasSetHeader) in
  let settlement (a : Activation) :=
    intercept Scenario.successOnlyConfig App.rate (request_after a)
      (handler_of (Responds 200) (response_after a)) in
  let g1 := exec guard db in
  let g2 := exec guard (final g1) in
  let s1 := exec (settlement (value g1)) (final g2) in
  let s2 := exec (settlement (value g2)) (final s1) in
  allowed (value g1) = true /\ allowed (value g2) = true /\
  Redis.counter key (final s2) = 3.
Proof.
  intros key db guard settlement g1 g2 s1 s2.
  assert (key_state key 10 db 1 10) as Hstate.
  { split; [lia | right]. split; [lia | apply lookup_singleton_eq]. }
  exact (success_only_overshoot RateLimitGuard.class Scenario.successOnlyConfig App.rate
           App.localhost (App.fresh HasSetHeader) db 1 10 eq_refl eq_refl Hstate eq_refl).
Defined.

(** ** The characters of a key *)

Lemma hex_digit_is_hex (x : Z) : is_hex_digit (SHA256.hex_digit x) = true.
Proof.
  unfold SHA256.hex_digit.
  change 0xf with (Z.ones 4). rewrite Z.land_ones by lia.
  pose proof (Z.mod_pos_bound x (2 ^ 4) ltac:(lia)) as Hd.
  set (d := x mod 2 ^ 4) in *.
  assert (d = 0 \/ d = 1 \/ d = 2 \/ d = 3 \/ d = 4 \/ d = 5 \/ d = 6 \/ d = 7 \/
          d = 8 \/ d = 9 \/ d = 10 \/ d = 11 \/ d = 12 \/ d = 13 \/ d = 14 \/ d = 15)
    as Hcases by lia.
  repeat (destruct Hcases as [-> | Hcases]; [reflexivity | ]).
  subst d. rewrite Hcases. reflexivity.
Qed.

(** X24.  A key is made of lower-case hexadecimal digits only, 64 of them,
    whatever the class name, the handler name and the tracker are: what a
    client sends (its address, a header) reaches the store only in this
    form. *)
Theorem key_is_lowercase_hex (context : ExecutionContext) (data : string) :
  forallb is_hex_digit (list_ascii_of_string (generateRateLimitKey context data)) = true /\
  length (list_ascii_of_string (generateRateLimitKey context data)) = 64%nat.
Proof.
  unfold generateRateLimitKey, sha256, SHA256.hex, SHA256.hex_word.
  cbn [list_ascii_of_string forallb length].
  rewrite !hex_digit_is_hex. split; reflexivity.
Qed.

(** ** The wiring of the module *)

Section ModuleWiring.
Variable Factory : Type.
Variable Any : Type.

Import RateLimitModule.

(** X25.  [forRoot] and [forRootAsync] wire the same module: everything
    they export is among what they provide, they provide under the same
    tokens and export the same ones, and they differ only in how the options
    are provided (a value, or a factory with its injections, absent ones
    read as none).  Both register the interceptor for every route under
    [APP_INTERCEPTOR]; neither registers the guard under [APP_GUARD], so a
    route is limited only where a guard is bound to it. *)
Theorem module_wiring
    (options : RateLimitOptions) (asyncOptions : RateLimitModuleAsyncOptions Factory Any) :
  let sync := forRoot Factory Any options in
  let async := forRootAsync asyncOptions in
  Forall (fun e => In (exported_token e) (map token_of (providers sync))) (exports sync) /\
  Forall (fun e => In (exported_token e) (map token_of (providers async))) (exports async) /\
  (forall token, In token (map token_of (providers sync))
                 <-> In token (map token_of (providers async))) /\
  map exported_token (exports sync) = map exported_token (exports async) /\
  In (UseValue RATE_LIMIT_MODULE_OPTIONS options) (providers sync) /\
  In (UseFactory RATE_LIMIT_MODULE_OPTIONS (useFactory asyncOptions)
        (default [] (inject asyncOptions))) (providers async) /\
  In (UseClass APP_INTERCEPTOR "RateLimitInterceptor") (providers sync) /\
  In (UseClass APP_INTERCEPTOR "RateLimitInterceptor") (providers async) /\
  ~ In APP_GUARD (map token_of (providers sync)) /\
  ~ In APP_GUARD (map token_of (providers async)).
Proof.
  intros sync async. subst sync async.
  unfold forRoot, forRootAsync, createAsyncOptionsProvider.
  cbn [providers exports map token_of exported_token].
  refine (conj _ (conj _ (conj _ (conj eq_refl (conj _ (conj _ (conj _ (conj _ (conj _ _))))))))).
  - repeat constructor; cbn [In]; tauto.
  - repeat constructor; cbn [In]; tauto.
  - intros token. cbn [In]. tauto.
  - cbn [In]. tauto.
  - cbn [In]. tauto.
  - cbn [In]. tauto.
  - cbn [In]. tauto.
  - cbn [In]. unfold APP_GUARD, APP_INTERCEPTOR, RATE_LIMIT_MODULE_OPTIONS.
    intros [H | [H | [H | [H | [H | []]]]]]; discriminate H.
  - cbn [In]. unfold APP_GUARD, APP_INTERCEPTOR, RATE_LIMIT_MODULE_OPTIONS.
    intros [H | [H | [H | [H | [H | []]]]]]; discriminate H.
Qed.

End ModuleWiring.

(** ** A duration that is not positive *)

Section NoWindow.
Variable this : RateLimitGuardClass.
Variable options : RateLimitOptions.
Variable context : ExecutionContext.
Variable request : Request.
Variable response : Response.
Hypothesis Hskip : skip_of context = false.

Local Abbreviation L := (effectiveLimit_of options context).
Local Abbreviation D := (effectiveDuration_of options context).
Local Abbreviation key := (generateRateLimitKey context (getTracker this request)).
Local Abbreviation bound := (bind_tracker request key).

Hypothesis Hduration : D <= 0.
Hypothesis Hlimit : 1 <= L.





End NoWindow.



(** ** A route that opts out of counting all requests under module options
       that count all *)



